(** * linehaul.server: a shallow embedding

    The development follows [src/linehaul/server.py]: the line decoder
    [parse_line], the grouping key [extract_item_date], the partitioning
    generator [compute_batches], the retrying dispatcher
    [actually_send_batch] with its wrapper [send_batch], and the batching
    loop [sender].

    Python values are modelled as the code has them: [bytes] as
    [list byte], [str] as the list of its code points, exceptions as a
    result type, calls to collaborators (the two grammars, the sink, the
    UUID and random sources) as oracles whose calls are logged. *)

From Stdlib Require Import List Bool Arith ZArith NArith QArith Lia.
From Stdlib.Strings Require Import Byte String Ascii.
From Stdlib Require Import Permutation Sorted DecimalString DecimalN DecimalPos.
From Stdlib Require Import Qminmax.
From Stdlib Require Import Lqa.
From Equations Require Import Equations.
Import ListNotations.
Close Scope Q_scope.

Set Implicit Arguments.

(** ** Python exceptions and results *)

(** The exception classes the module can see.  [UnicodeDecodeError]
    derives from [ValueError]; [OtherError] stands for any further
    [Exception] subclass raised by a collaborator; [Cancelled] is trio's
    cancellation signal, which derives from [BaseException] only. *)
Inductive exn : Type :=
| ValueError
| UnicodeDecodeError
| IndexError
| TooSlowError
| OtherError (tag : nat)
| Cancelled.

(** [isinstance(e, Exception)]. *)
Definition is_Exception (e : exn) : bool :=
  match e with
  | Cancelled => false
  | _ => true
  end.

(** [isinstance(e, ValueError)]. *)
Definition is_ValueError (e : exn) : bool :=
  match e with
  | ValueError | UnicodeDecodeError => true
  | _ => false
  end.

(** [isinstance(e, trio.TooSlowError)]. *)
Definition is_TooSlowError (e : exn) : bool :=
  match e with
  | TooSlowError => true
  | _ => false
  end.

Inductive result (A : Type) : Type :=
| Ok (a : A)
| Raise (e : exn).
Arguments Ok {A} a.
Arguments Raise {A} e.

(** ** Python [str] and [bytes] *)

(** A [str] is its sequence of code points. *)
Definition str : Type := list N.

Definition str_of_string (s : string) : str :=
  map N_of_ascii (list_ascii_of_string s).

(** [s.startswith(prefix)]. *)
Fixpoint startswith (s prefix : str) : bool :=
  match prefix, s with
  | [], _ => true
  | _ :: _, [] => false
  | p :: prefix', c :: s' => N.eqb c p && startswith s' prefix'
  end.

(** [a < b] on [str]: lexicographic on code points. *)
Fixpoint str_ltb (a b : str) : bool :=
  match a, b with
  | _, [] => false
  | [], _ :: _ => true
  | x :: a', y :: b' =>
      if N.ltb x y then true
      else if N.eqb x y then str_ltb a' b'
      else false
  end.

Module Utf8.

(** A continuation byte [10xxxxxx] gives its six payload bits. *)
Definition cont (b : byte) : option N :=
  let n := Byte.to_N b in
  if (N.leb 128 n && N.leb n 191)%bool then Some (n - 128)%N else None.

Definition surrogate (cp : N) : bool :=
  (N.leb 55296 cp && N.leb cp 57343)%bool.

(** [bytes.decode("utf8")] with the default strict error handler:
    [None] stands for [UnicodeDecodeError].  Overlong forms, surrogates
    and code points above U+10FFFF are refused, as are stray
    continuation bytes and truncated sequences. *)
Fixpoint decode (bs : list byte) : option str :=
  match bs with
  | [] => Some []
  | b0 :: r0 =>
      let n0 := Byte.to_N b0 in
      if N.ltb n0 128 then option_map (cons n0) (decode r0)
      else if N.ltb n0 194 then None
      else if N.ltb n0 224 then
        match r0 with
        | b1 :: r1 =>
            match cont b1 with
            | Some c1 =>
                option_map (cons ((n0 - 192) * 64 + c1)%N) (decode r1)
            | None => None
            end
        | [] => None
        end
      else if N.ltb n0 240 then
        match r0 with
        | b1 :: b2 :: r2 =>
            match cont b1, cont b2 with
            | Some c1, Some c2 =>
                let cp := ((n0 - 224) * 4096 + c1 * 64 + c2)%N in
                if (N.ltb cp 2048 || surrogate cp)%bool then None
                else option_map (cons cp) (decode r2)
            | _, _ => None
            end
        | _ => None
        end
      else if N.ltb n0 245 then
        match r0 with
        | b1 :: b2 :: b3 :: r3 =>
            match cont b1, cont b2, cont b3 with
            | Some c1, Some c2, Some c3 =>
                let cp :=
                  ((n0 - 240) * 262144 + c1 * 4096 + c2 * 64 + c3)%N in
                if (N.ltb cp 65536 || N.ltb 1114111 cp)%bool then None
                else option_map (cons cp) (decode r3)
            | _, _, _ => None
            end
        | _ => None
        end
      else None
  end.

(** [str.encode("ascii")] for a literal, used to write test lines. *)
Definition bytes_of_string (s : string) : list byte :=
  list_byte_of_string s.

End Utf8.

(** ** Timestamps: the part of [arrow.Arrow] the module uses *)

Module Arrow.

(** The calendar fields of the wrapped [datetime], and the time within
    the day. *)
Record t : Type := mk {
  year : N;
  month : N;
  day : N;
  second_of_day : N
}.

Definition is_leap (y : N) : bool :=
  (N.eqb (y mod 4) 0 && (negb (N.eqb (y mod 100) 0) || N.eqb (y mod 400) 0))%bool.

Definition days_in_month (leap : bool) (m : N) : N :=
  match m with
  | 1 => 31 | 2 => if leap then 29 else 28 | 3 => 31 | 4 => 30
  | 5 => 31 | 6 => 30 | 7 => 31 | 8 => 31
  | 9 => 30 | 10 => 31 | 11 => 30 | 12 => 31
  | _ => 0
  end%N.

Definition days_before_month (leap : bool) (m : N) : N :=
  let l := if leap then 1%N else 0%N in
  match m with
  | 1 => 0 | 2 => 31 | 3 => 59 + l | 4 => 90 + l
  | 5 => 120 + l | 6 => 151 + l | 7 => 181 + l | 8 => 212 + l
  | 9 => 243 + l | 10 => 273 + l | 11 => 304 + l | 12 => 334 + l
  | _ => 0
  end%N.

(** The dates a [datetime] can hold: years 1 to 9999. *)
Definition valid (d : t) : bool :=
  (N.leb 1 (year d) && N.leb (year d) 9999
   && N.leb 1 (month d) && N.leb (month d) 12
   && N.leb 1 (day d)
   && N.leb (day d) (days_in_month (is_leap (year d)) (month d)))%bool.

(** [dt.timetuple().tm_yday]. *)
Definition yday (d : t) : N :=
  (days_before_month (is_leap (year d)) (month d) + day d)%N.

(** [str(n)] for a non-negative integer. *)
Definition str_of_N (n : N) : str :=
  str_of_string (NilZero.string_of_uint (N.to_uint n)).

(** ['{0:0Wd}'.format(n)]: decimal, left-padded with zeros to width
    [w]; longer numerals are left as they are. *)
Definition zero_pad (w : nat) (n : N) : str :=
  let s := str_of_N n in
  repeat 48%N (w - List.length s) ++ s.

(** The numeric date tokens of arrow's formatter. *)
Inductive token : Type :=
| YYYY | YY | MM | M | DDDD | DDD | DD | D
| Lit (c : ascii).

(** The formatter splits a format string with the pattern
    [YYY?Y?|MM?M?M?|...|DD?D?D?|...], leftmost and greedy: a run of one
    letter is cut into pieces of at most four.  [runs] gathers the
    maximal pieces; the head of the accumulator is the piece being
    read. *)
Definition is_field_letter (c : ascii) : bool :=
  (Ascii.eqb c "Y" || Ascii.eqb c "M" || Ascii.eqb c "D")%bool.

Definition run_step (acc : list (ascii * nat)) (c : ascii)
  : list (ascii * nat) :=
  match acc with
  | (c', n) :: acc' =>
      if (Ascii.eqb c c' && is_field_letter c && Nat.ltb n 4)%bool
      then (c', S n) :: acc'
      else (c, 1) :: acc
  | [] => [(c, 1)]
  end.

Definition runs (fmt : string) : list (ascii * nat) :=
  rev (fold_left run_step (list_ascii_of_string fmt) []).

(** Pieces the numeric model does not cover (month names, a lone [Y],
    the letters of other fields) are kept as literal text. *)
Definition token_of_run (r : ascii * nat) : list token :=
  let '(c, n) := r in
  if Ascii.eqb c "Y" then
    match n with 4 => [YYYY] | 2 => [YY] | _ => repeat (Lit c) n end
  else if Ascii.eqb c "M" then
    match n with 2 => [MM] | 1 => [M] | _ => repeat (Lit c) n end
  else if Ascii.eqb c "D" then
    match n with 4 => [DDDD] | 3 => [DDD] | 2 => [DD] | 1 => [D]
               | _ => repeat (Lit c) n end
  else repeat (Lit c) n.

Definition tokenize (fmt : string) : list token :=
  flat_map token_of_run (runs fmt).

Definition format_token (d : t) (k : token) : str :=
  match k with
  | YYYY => zero_pad 4 (year d)
  | YY => skipn 2 (zero_pad 4 (year d))
  | MM => zero_pad 2 (month d)
  | M => str_of_N (month d)
  | DDDD => zero_pad 3 (yday d)
  | DDD => str_of_N (yday d)
  | DD => zero_pad 2 (day d)
  | D => str_of_N (day d)
  | Lit c => [N_of_ascii c]
  end.

(** [dt.format(fmt)]. *)
Definition format (d : t) (fmt : string) : str :=
  flat_map (format_token d) (tokenize fmt).

(** Two timestamps fall on the same calendar date. *)
Definition same_date (a b : t) : Prop :=
  year a = year b /\ month a = month b /\ day a = day b.

End Arrow.

(** ** The decoder: [parse_line] *)

(** The two grammars live in [linehaul.syslog.parser] and
    [linehaul.events.parser]; they are taken as an interface.  Each
    either returns its value or raises. *)
Class Grammars : Type := {
  SyslogMessage : Type;
  message : SyslogMessage -> str;
  Download : Type;
  timestamp : Download -> Arrow.t;
  syslog_parse : str -> result SyslogMessage;
  event_parse : str -> result Download
}.

(** A call to one of the grammars, as logged. *)
Inductive parser_call : Type :=
| SyslogParse (line : str)
| EventParse (payload : str).

(** Computations that log their grammar calls and may raise. *)
Definition P (A : Type) : Type := (list parser_call * result A)%type.

Definition ret {A} (a : A) : P A := ([], Ok a).
Definition raise {A} (e : exn) : P A := ([], Raise e).
Definition bind {A B} (m : P A) (f : A -> P B) : P B :=
  match m with
  | (l, Ok a) => let '(l', r) := f a in (l ++ l', r)
  | (l, Raise e) => (l, Raise e)
  end.

(** [try: m  except ValueError: h]. *)
Definition try_except_ValueError {A} (m : P A) (h : P A) : P A :=
  match m with
  | (l, Raise e) =>
      if is_ValueError e then let '(l', r) := h in (l ++ l', r)
      else (l, Raise e)
  | ok => ok
  end.

Declare Scope py_scope.
Delimit Scope py_scope with py.
Notation "x <- m ;; k" := (bind m (fun x => k))
  (at level 100, m at next level, right associativity) : py_scope.

Section Decoder.

Context {G : Grammars}.
Local Open Scope py_scope.

Definition _syslog_parser_parse (line : str) : P SyslogMessage :=
  ([SyslogParse line], syslog_parse line).
Definition _event_parser_parse (payload : str) : P Download :=
  ([EventParse payload], event_parse payload).

(** [line.decode("utf8")]. *)
Definition decode_utf8 (line : list byte) : P str :=
  match Utf8.decode line with
  | Some s => ret s
  | None => raise UnicodeDecodeError
  end.

(** The token gate of lines 45-49: [None] is the early [return]. *)
Definition check_token (line : str) (token : option str) : option str :=
  match token with
  | Some t =>
      if negb (startswith line t) then None
      else Some (skipn (List.length t) line)
  | None => Some line
  end.

Definition parse_line (line : list byte) (token : option str)
  : P (option Download) :=
  line <- decode_utf8 line ;;
  match check_token line token with
  | None => ret None
  | Some line =>
      try_except_ValueError
        (msg <- _syslog_parser_parse line ;;
         event <- _event_parser_parse (message msg) ;;
         ret (Some event))
        (ret None)
  end.

End Decoder.

(** ** Grouping key and partitioning: [extract_item_date], [compute_batches] *)

Definition extract_item_date {G : Grammars} (item : Download) : str :=
  Arrow.format (timestamp item) "YYYYMDDD".

(** [a == b] on [str]. *)
Fixpoint str_eqb (a b : str) : bool :=
  match a, b with
  | [], [] => true
  | x :: a', y :: b' => N.eqb x y && str_eqb a' b'
  | _, _ => false
  end.

Section Partition.

Variables (A K : Type) (key : A -> K).
Variables (ltb eqb : K -> K -> bool).

(** [sorted(l, key=key)] is a stable sort that compares keys with [<].
    A stable sort has one possible result; it is computed here by
    insertion, each element going in front of the first later element
    whose key is not smaller. *)
Fixpoint insert (x : A) (l : list A) : list A :=
  match l with
  | [] => [x]
  | y :: l' => if ltb (key y) (key x) then y :: insert x l' else x :: l
  end.

Definition sorted (l : list A) : list A := fold_right insert [] l.

(** [itertools.groupby(l, key)]: maximal runs of consecutive elements
    with [==] keys, each tagged with the key of its first element. *)
Fixpoint groupby (l : list A) : list (K * list A) :=
  match l with
  | [] => []
  | x :: l' =>
      match groupby l' with
      | (k, g) :: gs =>
          if eqb (key x) k then (key x, x :: g) :: gs
          else (key x, [x]) :: (k, g) :: gs
      | [] => [(key x, [x])]
      end
  end.

End Partition.

(** [_cattr.unstructure] on one record: the transport form of its fields. *)
Class Converter {G : Grammars} : Type := {
  Json : Type;
  unstructure : Download -> Json
}.

(** [uuid4_str n] is what the [n]-th evaluation of [str(uuid.uuid4())] in
    this process returns. *)
Class UuidSource : Type := {
  uuid4_str : nat -> str
}.

Section Batches.

Context {G : Grammars} {C : Converter} {U : UuidSource}.

(** One element of a sub-batch: [{"insertId": ..., "json": ...}]. *)
Record row : Type := mk_row {
  insertId : str;
  json : Json
}.

(** The list comprehension of lines 72-75; [n] counts the UUIDs drawn
    so far. *)
Fixpoint label_rows (rows : list Json) (n : nat) : list row * nat :=
  match rows with
  | [] => ([], n)
  | r :: rows' =>
      let '(out, n') := label_rows rows' (S n) in
      (mk_row (uuid4_str n) r :: out, n')
  end.

(** A generator run to its end: what it yielded, how it stopped
    ([None]: exhausted, [Some e]: raised), and the UUID counter. *)
Definition generated (Y : Type) : Type := (list Y * option exn * nat)%type.

(** The body of the [for] loop over the groups. *)
Fixpoint yield_groups (groups : list (str * list Download)) (n : nat)
  : generated (str * list row) :=
  match groups with
  | [] => ([], None, n)
  | (date, items) :: groups' =>
      match items with
      | [] => ([], Some IndexError, n)
      | first :: _ =>
          let '(rows, n1) := label_rows (map unstructure items) n in
          let '(out, e, n2) := yield_groups groups' n1 in
          ((extract_item_date first, rows) :: out, e, n2)
      end
  end.

Definition compute_batches (all_items : list Download) (n : nat)
  : generated (str * list row) :=
  yield_groups
    (groupby extract_item_date str_eqb
       (sorted extract_item_date str_ltb all_items))
    n.

End Batches.

(** ** Dispatch: [actually_send_batch], [send_batch] *)

(** A value together with the fact that it is the value of [a]. *)
Definition inspect {A : Type} (a : A) : {b : A | a = b} :=
  exist _ a eq_refl.

Definition default {A : Type} (d : A) (o : option A) : A :=
  match o with
  | Some a => a
  | None => d
  end.

(** What one [bq.insert_all] call does when left alone: it runs for
    [fst] seconds and then returns or raises. *)
Inductive sink_reply : Type :=
| Inserted
| Failed (e : exn).

(** The sink.  [bq_insert_all k table rows suffix] is the behaviour of the
    call made on attempt [k]. *)
Class Sink {G : Grammars} {C : Converter} : Type := {
  Table : Type;
  bq_insert_all : nat -> Table -> list row -> str -> Q * sink_reply
}.

(** [random k] is the value [random.random()] gives for the wait after
    attempt [k]; it lies in [0, 1). *)
Class RandomSource : Type := {
  random : nat -> Q;
  random_range : forall k, (0 <= random k /\ random k < 1)%Q
}.

Section Dispatch.

Context {G : Grammars} {C : Converter} {B : Sink} {R : RandomSource}.

(** What a dispatch does to the outside, in order. *)
Inductive dispatch_event : Type :=
| SinkCall (attempt : nat) (table : Table) (batch : list row)
    (template_suffix : str) (deadline : Q)
| Sleep (seconds : Q).

Definition D (A : Type) : Type := (result A * list dispatch_event)%type.

(** The undecorated body, lines 107-111, on attempt [k], with the time
    the [with] block takes.  [trio.fail_after] refuses a negative
    timeout with [ValueError]; a call still running when the deadline
    expires is cancelled then and [TooSlowError] is raised in its
    place; a call that ends before the deadline takes the time the sink
    took. *)
Definition timed_attempt (k : nat) (table : Table) (template_suffix : str)
    (batch : list row) (api_timeout : option Q) : D unit * Q :=
  let api_timeout := default 15%Q api_timeout in
  if Qle_bool 0 api_timeout then
    let '(elapsed, reply) := bq_insert_all k table batch template_suffix in
    let call := SinkCall k table batch template_suffix api_timeout in
    if Qle_bool api_timeout elapsed then
      ((Raise TooSlowError, [call]), api_timeout)
    else
      match reply with
      | Inserted => ((Ok tt, [call]), elapsed)
      | Failed e => ((Raise e, [call]), elapsed)
      end
  else ((Raise ValueError, []), 0%Q).

(** What the attempt does, without its time. *)
Definition send_attempt (k : nat) (table : Table) (template_suffix : str)
    (batch : list row) (api_timeout : option Q) : D unit :=
  fst (timed_attempt k table template_suffix batch api_timeout).

(** The decorator's arguments. *)

(** [tenacity.retry_if_exception_type(trio.TooSlowError)]. *)
Definition retry_if_exception_type_TooSlowError (e : exn) : bool :=
  is_TooSlowError e.

(** [tenacity.wait_exponential]: [multiplier * 2 ** attempt_number],
    clamped to [0, max]. *)
Definition wait_exponential (multiplier max : Q) (attempt_number : nat) : Q :=
  Qmax 0 (Qmin (multiplier * inject_Z (2 ^ Z.of_nat attempt_number)) max).

(** [tenacity.wait_random_exponential]:
    [random.uniform(0, high)], that is [0 + (high - 0) * random()]. *)
Definition wait_random_exponential (multiplier max : Q)
    (attempt_number : nat) : Q :=
  let high := wait_exponential multiplier max attempt_number in
  (0 + (high - 0) * random attempt_number)%Q.

(** [tenacity.stop_after_attempt(n)]. *)
Definition stop_after_attempt (max_attempt_number attempt_number : nat)
  : bool :=
  Nat.leb max_attempt_number attempt_number.

(** Lines 100-105: tenacity's loop with this policy and [reraise=True].
    An attempt that returns ends the loop; one that raises a fault the
    predicate refuses re-raises it; otherwise the stop rule is asked,
    and then the wait is slept before the next attempt. *)
Equations? retrying (max_attempt_number : nat) (table : Table)
    (template_suffix : str) (batch : list row) (api_timeout : option Q)
    (attempt_number : nat)
  : D unit by wf (max_attempt_number - attempt_number) lt :=
  retrying max_attempt_number table template_suffix batch api_timeout
      attempt_number
    with send_attempt attempt_number table template_suffix batch
           api_timeout => {
    | (Ok _, log) => (Ok tt, log)
    | (Raise e, log)
        with retry_if_exception_type_TooSlowError e => {
        | false => (Raise e, log)
        | true
            with inspect
                   (stop_after_attempt max_attempt_number attempt_number) => {
            | exist _ true _ => (Raise e, log)
            | exist _ false h =>
                let w := wait_random_exponential 1 60 attempt_number in
                let '(r, log') :=
                  retrying max_attempt_number table template_suffix batch
                    api_timeout (S attempt_number) in
                (r, log ++ Sleep w :: log')
          }
      }
  }.
Proof.
  unfold stop_after_attempt in h. apply Nat.leb_gt in h. lia.
Qed.

Definition actually_send_batch (table : Table) (template_suffix : str)
    (batch : list row) (api_timeout : option Q) : D unit :=
  retrying 15 table template_suffix batch api_timeout 1.

(** Lines 114-128: [try: ... except Exception: pass]. *)
Definition send_batch (table : Table) (template_suffix : str)
    (batch : list row) (api_timeout : option Q) : D unit :=
  match actually_send_batch table template_suffix batch api_timeout with
  | (Raise e, log) =>
      if is_Exception e then (Ok tt, log) else (Raise e, log)
  | ok => ok
  end.

End Dispatch.

(** ** The batching loop: [sender] *)

Section Sender.

Context {G : Grammars} {C : Converter} {U : UuidSource} {B : Sink}.

(** What the queue does during one cycle: the [k]-th record the cycle
    can take is on the queue from the given time on, in seconds since
    the cycle started (at zero or before: it was queued when the cycle
    started); after the last entry [q.get()] blocks. *)
Definition arrivals : Type := list (Q * Download).

(** Lines 142-144.  [trio.move_on_after] sets a deadline, and the run
    loop delivers an expired deadline when it next runs.  A [q.get()]
    to which the cancellation was delivered raises at once and the block
    is left.  Otherwise a [q.get()] that finds its record on the queue
    returns it without blocking and passes through the run loop
    afterwards; one that has to block is cancelled when the deadline
    comes no later than the record, and returns the record otherwise.
    [now] is the time of the last pass through the run loop. *)
Fixpoint collect_loop (batch_size : Z) (batch_timeout : Q) (feed : arrivals)
    (batch : list Download) (now : Q) (cancelled : bool) : list Download :=
  if Z.ltb (Z.of_nat (List.length batch)) batch_size then
    match feed with
    | (t, item) :: feed' =>
        if cancelled then batch
        else if Qle_bool t now then
          collect_loop batch_size batch_timeout feed' (batch ++ [item])
            now (Qle_bool batch_timeout now)
        else if Qle_bool batch_timeout t then batch
        else
          collect_loop batch_size batch_timeout feed' (batch ++ [item])
            t false
    | [] => batch
    end
  else batch.

(** The cycle starts at time zero with nothing delivered: entering
    [trio.move_on_after] does not pass through the run loop. *)
Definition collect (batch_size : Z) (batch_timeout : Q) (feed : arrivals)
    (batch : list Download) : list Download :=
  collect_loop batch_size batch_timeout feed batch 0%Q false.

(** [nursery.start_soon(partial(send_batch, bq, table, template_suffix,
    batch, api_timeout=api_timeout))]. *)
Record task : Type := start_soon {
  task_table : Table;
  task_template_suffix : str;
  task_batch : list row;
  task_api_timeout : option Q
}.

(** One turn of the [while True] loop: the tasks it starts, how it
    ends, and the UUID counter.  [trio.move_on_after] refuses a negative
    timeout with [ValueError]. *)
Definition sender_cycle (table : Table) (batch_size : Z)
    (batch_timeout : Q) (api_timeout : option Q) (feed : arrivals)
    (n : nat) : generated task :=
  if Qle_bool 0 batch_timeout then
    let batch := collect batch_size batch_timeout feed [] in
    let '(subs, e, n') := compute_batches batch n in
    (map (fun sub => start_soon table (fst sub) (snd sub) api_timeout) subs,
     e, n')
  else ([], Some ValueError, n).

Fixpoint sender_loop (table : Table) (batch_size : Z) (batch_timeout : Q)
    (api_timeout : option Q) (feeds : list arrivals) (n : nat)
  : generated task :=
  match feeds with
  | [] => ([], None, n)
  | feed :: feeds' =>
      match sender_cycle table batch_size batch_timeout api_timeout feed n
      with
      | (tasks, None, n1) =>
          let '(tasks', e, n2) :=
            sender_loop table batch_size batch_timeout api_timeout
              feeds' n1 in
          (tasks ++ tasks', e, n2)
      | stopped => stopped
      end
  end.

(** Lines 131-156, run for as many cycles as [feeds] describes. *)
Definition sender (table : Table) (batch_size : option Z)
    (batch_timeout api_timeout : option Q) (feeds : list arrivals)
    (n : nat) : generated task :=
  let batch_size := default 3%Z batch_size in
  let batch_timeout := default 30%Q batch_timeout in
  sender_loop table batch_size batch_timeout api_timeout feeds n.

End Sender.

(** ** A concrete world for examples *)

Module Example.

Record download : Type := mk_download {
  dl_timestamp : Arrow.t;
  dl_project : nat
}.

(** A toy pair of grammars: the envelope is the whole line, refused with
    [ValueError] when empty; the payload ["A"] is an event on
    2018-01-01, ["B"] one on 2018-12-31, ["K"] makes the event grammar
    fail with another exception class, anything else is a
    [ValueError]. *)
#[export] Instance grammars : Grammars := {|
  SyslogMessage := str;
  message := fun m => m;
  Download := download;
  timestamp := dl_timestamp;
  syslog_parse := fun l =>
    match l with [] => Raise ValueError | _ => Ok l end;
  event_parse := fun p =>
    match p with
    | [65%N] => Ok (mk_download (Arrow.mk 2018 1 1 0) 1)
    | [66%N] => Ok (mk_download (Arrow.mk 2018 12 31 0) 2)
    | [75%N] => Raise (OtherError 0)
    | _ => Raise ValueError
    end
|}.

#[export] Instance converter : Converter := {|
  Json := nat * N;
  unstructure := fun d : Download =>
    (dl_project d, Arrow.second_of_day (dl_timestamp d))
|}.

(** UUIDs that never repeat: the decimal numeral of the call index. *)
#[export] Instance uuids : UuidSource := {|
  uuid4_str := fun n => Arrow.str_of_N (N.of_nat n)
|}.

(** A sink that runs into the deadline on attempts 1 to 4 and accepts
    the rows on attempt 5. *)
#[export] Instance slow_sink : Sink := {|
  Table := unit;
  bq_insert_all := fun k _ _ _ =>
    if Nat.ltb k 5 then (20%Q, Inserted) else (1%Q, Inserted)
|}.

(** A sink that never answers in time. *)
Definition dead_sink : Sink := {|
  Table := unit;
  bq_insert_all := fun _ _ _ _ => (3600%Q, Inserted)
|}.

(** A sink that refuses the rows at once. *)
Definition rejecting_sink : Sink := {|
  Table := unit;
  bq_insert_all := fun _ _ _ _ => (1%Q, Failed (OtherError 7))
|}.

(** A sink whose call is cancelled from outside after a second:
    [trio.Cancelled] is a [BaseException], not an [Exception]. *)
Definition cancelled_sink : Sink := {|
  Table := unit;
  bq_insert_all := fun _ _ _ _ => (1%Q, Failed Cancelled)
|}.

Lemma half_in_range (k : nat) : (0 <= 1 # 2 /\ (1 # 2) < 1)%Q.
Proof. split; [discriminate | reflexivity]. Qed.

#[export] Instance coin : RandomSource := {|
  random := fun _ => (1 # 2)%Q;
  random_range := half_in_range
|}.

Definition d1 := mk_download (Arrow.mk 2018 1 1 0) 1.
Definition d1' := mk_download (Arrow.mk 2018 1 1 3600) 3.
Definition d2 := mk_download (Arrow.mk 2018 12 31 0) 2.

End Example.


(** ** Finite checks used for the key *)

(** The numbers below [n], and a test of all of them. *)
Definition N_below (n : N) : list N := map N.of_nat (seq 0 (N.to_nat n)).

Definition forall_below (n : N) (f : N -> bool) : bool :=
  forallb f (N_below n).

(** The number a decimal numeral denotes. *)
Definition digits_value (s : str) : N :=
  fold_left (fun acc c => (acc * 10 + (c - 48))%N) s 0%N.

(** The part of the key after the year: [M] then [DDD]. *)
Definition month_day_text (leap : bool) (m d : N) : str :=
  Arrow.str_of_N m ++ Arrow.str_of_N (Arrow.days_before_month leap m + d).

Definition valid_month_day (leap : bool) (m d : N) : bool :=
  (N.leb 1 m && N.leb m 12 && N.leb 1 d
   && N.leb d (Arrow.days_in_month leap m))%bool.

(** The four-digit year can be read back. *)
Definition year_text_ok (y : N) : bool :=
  (Nat.eqb (List.length (Arrow.zero_pad 4 y)) 4
   && N.eqb (digits_value (Arrow.zero_pad 4 y)) y)%bool.

(** Within one year, two days with the same text are the same day. *)
Definition month_day_text_inj (leap : bool) : bool :=
  forall_below 13 (fun m1 => forall_below 32 (fun d1 =>
  forall_below 13 (fun m2 => forall_below 32 (fun d2 =>
    implb (valid_month_day leap m1 d1 && valid_month_day leap m2 d2
           && str_eqb (month_day_text leap m1 d1) (month_day_text leap m2 d2))
          (N.eqb m1 m2 && N.eqb d1 d2))))).

(** ** Vocabulary for the partitioning facts *)

Section PartitionVocabulary.

Variables (A K : Type) (key : A -> K).
Variables (ltb eqb : K -> K -> bool).

(** The element carries the key [k]. *)
Definition has_key (k : K) (x : A) : bool := eqb (key x) k.

(** The key of [x] is not after the key of [y]. *)
Definition key_le (x y : A) : Prop := ltb (key y) (key x) = false.

End PartitionVocabulary.

(** Groups as [groupby] makes them on a sorted list: none is empty and
    each holds records of its own key. *)
Definition well_grouped {G : Grammars}
    (groups : list (str * list Download)) : Prop :=
  Forall (fun kg =>
            snd kg <> []
            /\ forall x, In x (snd kg) -> extract_item_date x = fst kg)
    groups.

(** ** Vocabulary for the dispatch facts *)

Section DispatchVocabulary.

Context {G : Grammars} {C : Converter} {B : Sink}.

(** The waits slept during a dispatch, in order: one per retry. *)
Definition sleeps_of (log : list dispatch_event) : list Q :=
  flat_map (fun ev => match ev with Sleep w => [w] | _ => [] end) log.

(** The reading of "a retry re-derives fresh tokens": no identifier sent
    on an attempt was sent on the attempt before it. *)
Definition rederives_tokens (log : list dispatch_event) : Prop :=
  forall k t t' rows rows' s s' d d',
    In (SinkCall k t rows s d) log ->
    In (SinkCall (S k) t' rows' s' d') log ->
    forall id, In id (map insertId rows') -> ~ In id (map insertId rows).

Context {R : RandomSource}.

(** The shape of a run of the retry loop that starts at attempt [k]:
    with [s] the number of waits slept, attempts [k] to [k + s] were
    made, all but the last failed with the timeout class, the result is
    the last attempt's, the last attempt timed out only if the cap was
    reached, and every sink call carried the arguments of the
    dispatch. *)
Definition run_shape (max : nat) (table : Table) (suffix : str)
    (batch : list row) (api_timeout : option Q) (k : nat)
    (run : D unit) : Prop :=
  let outcome i := fst (send_attempt i table suffix batch api_timeout) in
  let s := List.length (sleeps_of (snd run)) in
  sleeps_of (snd run) = map (wait_random_exponential 1 60) (seq k s)
  /\ (k <= max -> k + s <= max)
  /\ (forall i, k <= i < k + s -> outcome i = Raise TooSlowError)
  /\ fst run = outcome (k + s)
  /\ (outcome (k + s) = Raise TooSlowError -> max <= k + s)
  /\ (forall j t b su dl, In (SinkCall j t b su dl) (snd run) ->
        k <= j <= k + s /\ t = table /\ b = batch /\ su = suffix
        /\ dl = default 15%Q api_timeout).

End DispatchVocabulary.

(** ** Vocabulary for the batching facts *)

(** What a cycle with a timeout of zero can take: the first record of
    the feed when it was queued at the start of the cycle. *)
Definition queued_first {G : Grammars} (feed : list (Q * Download))
  : list Download :=
  match feed with
  | (t, item) :: _ => if Qle_bool t 0 then [item] else []
  | [] => []
  end.

(** The records of a cycle's feed that arrive before the deadline: the
    feed up to its first entry at or after [timeout]. *)
Fixpoint arrived_before {G : Grammars} (timeout : Q)
    (feed : list (Q * Download)) : list Download :=
  match feed with
  | (t, item) :: feed' =>
      if Qle_bool timeout t then [] else item :: arrived_before timeout feed'
  | [] => []
  end.

(** Within one year, the text of a day has two to five digits. *)
Definition month_day_text_width (leap : bool) : bool :=
  forall_below 13 (fun m => forall_below 32 (fun d =>
    implb (valid_month_day leap m d)
          (Nat.leb 2 (List.length (month_day_text leap m d))
           && Nat.leb (List.length (month_day_text leap m d)) 5))).

(** ** Vocabulary for the further dispatch facts *)

Section DispatchMoreVocabulary.

Context {G : Grammars} {C : Converter} {B : Sink} {R : RandomSource}.

(** The log of a dispatch that goes through attempts [k] to [k + s]: a
    sink call per attempt, a wait between two attempts. *)
Fixpoint attempts_log (table : Table) (suffix : str) (batch : list row)
    (deadline : Q) (k s : nat) : list dispatch_event :=
  match s with
  | 0 => [SinkCall k table batch suffix deadline]
  | S s' =>
      SinkCall k table batch suffix deadline
      :: Sleep (wait_random_exponential 1 60 k)
      :: attempts_log table suffix batch deadline (S k) s'
  end.

(** The time an event takes: a sink call takes what the attempt that
    made it takes, a wait lasts its length. *)
Definition event_time (ev : dispatch_event) : Q :=
  match ev with
  | SinkCall k table batch suffix deadline =>
      snd (timed_attempt k table suffix batch (Some deadline))
  | Sleep w => w
  end.

Definition dispatch_time (log : list dispatch_event) : Q :=
  fold_right (fun ev acc => (event_time ev + acc)%Q) 0%Q log.

(** The largest waits a dispatch can draw after attempts [k] to
    [k + s - 1]. *)
Fixpoint wait_caps (k s : nat) : Q :=
  match s with
  | 0 => 0%Q
  | S s' => (wait_exponential 1 60 k + wait_caps (S k) s')%Q
  end.

End DispatchMoreVocabulary.

(** ** The connection handler: [handle_connection] *)

(** [linehaul.protocol.LineReceiver] as [handle_connection] uses it: an
    object built from a callback, fed the bytes that were read, closed at
    the end.  [recieve_data] is a generator: it gives what it yields
    before it ends or raises, and the receiver it leaves behind. *)
Class LineReceiver {G : Grammars} : Type := {
  receiver : Type;
  Msg : Type;
  new_LineReceiver : (list byte -> P (option Download)) -> receiver;
  recieve_data : receiver -> list byte -> list Msg * option exn * receiver;
  close : receiver -> receiver
}.

(** What one [stream.receive_some(1024)] does: it returns bytes, none at
    the end of the stream; it raises [trio.BrokenStreamError]; or it
    raises something else. *)
Inductive received : Type :=
| Data (data : list byte)
| BrokenStreamError
| ReadFails (e : exn).

Section Connection.

Context {G : Grammars} {L : LineReceiver}.

(** What the handler does to the queue and to the receiver. *)
Inductive connection_event : Type :=
| Put (msg : Msg)
| Close.

(** How the handler stands after the reads it was given: it returned, it
    raised, or it waits in [receive_some] for the next read. *)
Inductive ending : Type :=
| Returned
| Raised (e : exn)
| Reading.

(** Lines 87-90: [try: ... except trio.BrokenStreamError: data = b""]. *)
Definition receive_some (r : received) : result (list byte) :=
  match r with
  | Data data => Ok data
  | BrokenStreamError => Ok []
  | ReadFails e => Raise e
  end.

(** Lines 86-97, the [while True] loop over the reads of the stream. *)
Fixpoint connection_loop (lr : receiver) (reads : list received)
  : list connection_event * ending * receiver :=
  match reads with
  | [] => ([], Reading, lr)
  | r :: reads' =>
      match receive_some r with
      | Raise e => ([], Raised e, lr)
      | Ok [] => ([Close], Returned, close lr)
      | Ok data =>
          match recieve_data lr data with
          | (msgs, Some e, lr') => (map Put msgs, Raised e, lr')
          | (msgs, None, lr') =>
              let '(events, e, lr'') := connection_loop lr' reads' in
              (map Put msgs ++ events, e, lr'')
          end
      end
  end.

(** Lines 83-97. *)
Definition handle_connection (reads : list received) (token : option str)
  : list connection_event * ending * receiver :=
  connection_loop
    (new_LineReceiver (fun line => parse_line line token)) reads.

(** The messages put on the queue, in order. *)
Definition puts_of (events : list connection_event) : list Msg :=
  flat_map (fun ev => match ev with Put msg => [msg] | Close => [] end)
    events.

End Connection.

(** A receiver for the examples: every read is one line, and a line that
    decodes to a record yields it. *)
Module ExampleReceiver.

#[export] Instance one_line_per_read
  : LineReceiver (G := Example.grammars) :=
  @Build_LineReceiver Example.grammars
    (list byte -> P (option Example.download))
    Example.download
    (fun callback => callback)
    (fun lr data =>
       match snd (lr data) with
       | Ok (Some event) => ([event], None, lr)
       | Ok None => ([], None, lr)
       | Raise e => ([], Some e, lr)
       end)
    (fun lr => lr).

End ExampleReceiver.

(** * Properties *)

(** ** The decoder *)

Section DecoderFacts.

Context {G : Grammars}.

Lemma startswith_app (s t : str) :
  startswith s t = true -> s = t ++ skipn (List.length t) s.
Proof.
  revert s. induction t as [|p t IH]; intros [|c s] H; simpl in *;
    try reflexivity; try discriminate.
  apply andb_prop in H. destruct H as [Hc Hs].
  apply N.eqb_eq in Hc. subst c. f_equal. now apply IH.
Qed.

(** Once the line is text, [parse_line] is the token gate followed by
    the two grammars under [except ValueError]. *)
Lemma parse_line_decoded (line : list byte) (s : str) (token : option str) :
  Utf8.decode line = Some s ->
  parse_line line token =
    match check_token s token with
    | None => ([], Ok None)
    | Some s' =>
        match syslog_parse s' with
        | Ok msg =>
            match event_parse (message msg) with
            | Ok event =>
                ([SyslogParse s'; EventParse (message msg)], Ok (Some event))
            | Raise e =>
                ([SyslogParse s'; EventParse (message msg)],
                 if is_ValueError e then Ok None else Raise e)
            end
        | Raise e =>
            ([SyslogParse s'], if is_ValueError e then Ok None else Raise e)
        end
    end.
Proof.
  intros Hdec. unfold parse_line, decode_utf8. rewrite Hdec. simpl.
  destruct (check_token s token) as [s'|]; [|reflexivity].
  unfold _syslog_parser_parse, _event_parser_parse, bind, ret,
    try_except_ValueError.
  destruct (syslog_parse s') as [msg|e]; simpl.
  - destruct (event_parse (message msg)) as [ev|e]; simpl; [reflexivity|].
    destruct (is_ValueError e); reflexivity.
  - destruct (is_ValueError e); simpl; reflexivity.
Qed.

(** On text, with grammars that fail with [ValueError] only, the decoder
    returns a record or nothing. *)
Lemma parse_line_text_total (line : list byte) (s : str)
    (token : option str) :
  Utf8.decode line = Some s ->
  (forall l e, syslog_parse l = Raise e -> is_ValueError e = true) ->
  (forall p e, event_parse p = Raise e -> is_ValueError e = true) ->
  exists r, snd (parse_line line token) = Ok r.
Proof.
  intros Hdec Hs He. rewrite (parse_line_decoded _ token Hdec).
  destruct (check_token s token) as [s'|]; [|now eexists].
  destruct (syslog_parse s') as [msg|e] eqn:E1.
  - destruct (event_parse (message msg)) as [ev|e] eqn:E2; [now eexists|].
    simpl. rewrite (He _ _ E2). now eexists.
  - simpl. rewrite (Hs _ _ E1). now eexists.
Qed.

(** C1.  The claim: for every byte string and any token, [parse_line]
    returns a record or nothing and never raises, also for bytes that
    are not valid UTF-8.  The code decodes the line before its [try]
    block: on the one-byte line [b"\xff"], whatever the token and the
    grammars, [UnicodeDecodeError] leaves [parse_line] and neither
    grammar is called. *)
Theorem parse_line_raises_on_invalid_utf8 (token : option str) :
  parse_line [xff] token = ([], Raise UnicodeDecodeError).
Proof. reflexivity. Qed.

(** On text the token gate is as specified: with a token configured, a
    line that does not start with it gives nothing and no grammar is
    called; a line that starts with it is parsed from just after the
    token, exactly as the remainder alone is parsed with no token
    configured; with no token the whole line goes to the first grammar. *)
Lemma parse_line_token_gate_on_text (line : list byte) (s : str) :
  Utf8.decode line = Some s ->
  (forall t, startswith s t = false ->
     parse_line line (Some t) = ([], Ok None))
  /\ (forall t, startswith s t = true ->
        exists rest,
          s = t ++ rest
          /\ (exists calls r,
                parse_line line (Some t) = (SyslogParse rest :: calls, r))
          /\ (forall line', Utf8.decode line' = Some rest ->
                parse_line line (Some t) = parse_line line' None))
  /\ (exists calls r, parse_line line None = (SyslogParse s :: calls, r)).
Proof.
  intros Hdec. split; [|split].
  - intros t Ht. rewrite (parse_line_decoded _ _ Hdec). simpl.
    now rewrite Ht.
  - intros t Ht. exists (skipn (List.length t) s).
    split; [now apply startswith_app|].
    rewrite (parse_line_decoded _ _ Hdec). simpl. rewrite Ht. simpl.
    split.
    + destruct (syslog_parse _) as [msg|e];
        [destruct (event_parse _)|]; eauto.
    + intros line' Hdec'. now rewrite (parse_line_decoded _ _ Hdec').
  - rewrite (parse_line_decoded _ _ Hdec). simpl.
    destruct (syslog_parse _) as [msg|e];
      [destruct (event_parse _)|]; eauto.
Qed.

(** C6.  The claim: with a token configured, every line that does not
    start with the token gives nothing, and every line that starts with
    it is parsed from just after the token.  The token is compared with
    the decoded text, and the decoding of line 42 is outside any guard:
    the line [b"\xff"], which does not start with the token ["tok"], and
    the line [b"tok\xff"], which does, both leave [parse_line] with
    [UnicodeDecodeError]; the first does not give nothing, the remainder
    of the second never reaches a grammar. *)
Theorem parse_line_token_gate_after_decode :
  parse_line [xff] (Some (str_of_string "tok"))
  = ([], Raise UnicodeDecodeError)
  /\ parse_line (Utf8.bytes_of_string "tok" ++ [xff])
       (Some (str_of_string "tok"))
     = ([], Raise UnicodeDecodeError).
Proof. split; reflexivity. Qed.

End DecoderFacts.

(** The gate on a tokened line, a line with the wrong token, and a line
    read with no token configured. *)
Lemma parse_line_token_gate_on_text_example :
  Utf8.decode (Utf8.bytes_of_string "tokA") = Some (str_of_string "tokA")
  /\ parse_line (G := Example.grammars)
       (Utf8.bytes_of_string "tokA") (Some (str_of_string "tik"))
     = ([], Ok None)
  /\ parse_line (G := Example.grammars)
       (Utf8.bytes_of_string "tokA") (Some (str_of_string "tok"))
     = parse_line (Utf8.bytes_of_string "A") None.
Proof.
  split; [reflexivity|].
  destruct (@parse_line_token_gate_on_text Example.grammars
              (Utf8.bytes_of_string "tokA") (str_of_string "tokA")
              eq_refl) as [Hbad [Hgood _]].
  split.
  - apply Hbad. reflexivity.
  - destruct (Hgood (str_of_string "tok") eq_refl) as [rest [Hs [_ Heq]]].
    apply Heq.
    change (str_of_string "tokA") with (str_of_string "tok" ++ str_of_string "A")
      in Hs.
    apply app_inv_head in Hs. now rewrite <- Hs.
Defined.

(** ** The grouping key *)

Lemma forall_below_spec (n : N) (f : N -> bool) :
  forall_below n f = true ->
  forall x, (x < n)%N -> f x = true.
Proof.
  unfold forall_below, N_below. intros H x Hx.
  rewrite forallb_forall in H. apply H.
  apply in_map_iff. exists (N.to_nat x). split; [apply N2Nat.id|].
  apply in_seq. lia.
Qed.

Lemma str_eqb_eq (a b : str) : str_eqb a b = true <-> a = b.
Proof.
  revert b. induction a as [|x a IH]; intros [|y b]; simpl;
    try (split; [discriminate|discriminate]); [tauto|].
  rewrite andb_true_iff, N.eqb_eq, IH.
  split; [intros [-> ->]; reflexivity | intros H; inversion H; auto].
Qed.

Lemma app_eq_same_length (A : Type) (l1 l2 r1 r2 : list A) :
  List.length l1 = List.length l2 -> l1 ++ r1 = l2 ++ r2 ->
  l1 = l2 /\ r1 = r2.
Proof.
  revert l2. induction l1 as [|x l1 IH]; intros [|y l2] Hlen H;
    simpl in *; try discriminate; [auto|].
  inversion H; subst. destruct (IH l2) as [-> ->]; auto.
Qed.

Lemma format_YYYYMDDD (d : Arrow.t) :
  Arrow.format d "YYYYMDDD" =
  Arrow.zero_pad 4 (Arrow.year d)
  ++ month_day_text (Arrow.is_leap (Arrow.year d)) (Arrow.month d) (Arrow.day d).
Proof.
  unfold Arrow.format. change (Arrow.tokenize "YYYYMDDD")
    with [Arrow.YYYY; Arrow.M; Arrow.DDD].
  simpl. now rewrite app_nil_r.
Qed.

Lemma all_years_ok : forall_below 10000 year_text_ok = true.
Proof. vm_compute. reflexivity. Qed.

Lemma all_month_days_inj (leap : bool) : month_day_text_inj leap = true.
Proof. destruct leap; vm_compute; reflexivity. Qed.

Lemma valid_fields (d : Arrow.t) :
  Arrow.valid d = true ->
  (Arrow.year d < 10000)%N
  /\ valid_month_day (Arrow.is_leap (Arrow.year d)) (Arrow.month d)
       (Arrow.day d) = true.
Proof.
  unfold Arrow.valid, valid_month_day. rewrite !andb_true_iff, !N.leb_le.
  intros [[[[[? ?] ?] ?] ?] ?]. repeat split; auto; lia.
Qed.

Lemma days_in_month_le (leap : bool) (m : N) :
  (Arrow.days_in_month leap m <= 31)%N.
Proof.
  unfold Arrow.days_in_month. destruct m as [|p]; [lia|].
  repeat (destruct p as [p|p|]; try (destruct leap; lia)).
Qed.

(** Timestamps on the same calendar date have the same key. *)
Lemma format_same_date (a b : Arrow.t) :
  Arrow.same_date a b ->
  Arrow.format a "YYYYMDDD" = Arrow.format b "YYYYMDDD".
Proof.
  intros [Hy [Hm Hd]]. rewrite !format_YYYYMDDD. now rewrite Hy, Hm, Hd.
Qed.

(** Timestamps with the same key are on the same calendar date. *)
Lemma format_key_inj (a b : Arrow.t) :
  Arrow.valid a = true -> Arrow.valid b = true ->
  Arrow.format a "YYYYMDDD" = Arrow.format b "YYYYMDDD" ->
  Arrow.same_date a b.
Proof.
  intros Va Vb. rewrite !format_YYYYMDDD.
  destruct (valid_fields _ Va) as [Ya Ma], (valid_fields _ Vb) as [Yb Mb].
  pose proof (forall_below_spec _ all_years_ok Ya) as Ka.
  pose proof (forall_below_spec _ all_years_ok Yb) as Kb.
  unfold year_text_ok in Ka, Kb.
  apply andb_prop in Ka, Kb. destruct Ka as [La Da], Kb as [Lb Db].
  apply Nat.eqb_eq in La, Lb. apply N.eqb_eq in Da, Db.
  intros H. apply app_eq_same_length in H; [|congruence].
  destruct H as [Hy Hmd].
  assert (Ey : Arrow.year a = Arrow.year b) by congruence.
  rewrite <- Ey in *. clear Hy.
  unfold Arrow.same_date. split; [exact Ey|].
  pose proof (all_month_days_inj (Arrow.is_leap (Arrow.year a))) as I.
  unfold month_day_text_inj in I.
  pose proof Ma as Ma'. pose proof Mb as Mb'.
  unfold valid_month_day in Ma', Mb'.
  rewrite !andb_true_iff, !N.leb_le in Ma', Mb'.
  pose proof (days_in_month_le (Arrow.is_leap (Arrow.year a)) (Arrow.month a)).
  pose proof (days_in_month_le (Arrow.is_leap (Arrow.year a)) (Arrow.month b)).
  apply forall_below_spec with (x := Arrow.month a) in I; [|lia].
  apply forall_below_spec with (x := Arrow.day a) in I; [|lia].
  apply forall_below_spec with (x := Arrow.month b) in I; [|lia].
  apply forall_below_spec with (x := Arrow.day b) in I; [|lia].
  rewrite Ma, Mb in I. apply str_eqb_eq in Hmd. rewrite Hmd in I.
  simpl in I. apply andb_prop in I. destruct I as [I1 I2].
  apply N.eqb_eq in I1, I2. auto.
Qed.

(** On timestamps a [datetime] can hold, two records have the same
    grouping key exactly when they fall on the same calendar date. *)
Lemma extract_item_date_same_date {G : Grammars} (a b : Download) :
  Arrow.valid (timestamp a) = true -> Arrow.valid (timestamp b) = true ->
  extract_item_date a = extract_item_date b
  <-> Arrow.same_date (timestamp a) (timestamp b).
Proof.
  intros Va Vb. unfold extract_item_date. split.
  - now apply format_key_inj.
  - apply format_same_date.
Qed.

(** C2.  The claim: every key has the same width, and keys agree exactly
    when the calendar dates agree.  The format string is ["YYYYMDDD"],
    which arrow reads as the tokens [YYYY], [M], [DDD]: the year on four
    digits, then the month and the day of the year, neither padded.  The
    key of 2018-01-01 is ["201811"], six characters wide, and the key of
    2018-12-31 is ["201812365"], nine characters wide. *)
Theorem extract_item_date_width_varies :
  extract_item_date (G := Example.grammars) Example.d1
  = str_of_string "201811"
  /\ extract_item_date (G := Example.grammars) Example.d2
     = str_of_string "201812365"
  /\ List.length (extract_item_date (G := Example.grammars) Example.d1) = 6
  /\ List.length (extract_item_date (G := Example.grammars) Example.d2) = 9.
Proof. repeat split. Qed.

(** ** Sorting and grouping *)

Section PartitionFacts.

Variables (A K : Type) (key : A -> K).
Variables (ltb eqb : K -> K -> bool).

(** [<] is a strict total order on keys and [==] is equality. *)
Hypothesis ltb_irrefl : forall a, ltb a a = false.
Hypothesis ltb_trans :
  forall a b c, ltb a b = true -> ltb b c = true -> ltb a c = true.
Hypothesis ltb_connex :
  forall a b, ltb a b = false -> ltb b a = false -> a = b.
Hypothesis eqb_eq : forall a b, eqb a b = true <-> a = b.

#[local] Abbreviation insert' := (insert key ltb).
#[local] Abbreviation sorted' := (sorted key ltb).
#[local] Abbreviation groupby' := (groupby key eqb).
#[local] Abbreviation has_key' := (has_key key eqb).
#[local] Abbreviation key_le' := (key_le key ltb).

Lemma filter_step (f : A -> bool) (x : A) (l : list A) :
  filter f (x :: l) = if f x then x :: filter f l else filter f l.
Proof. reflexivity. Qed.

Lemma filter_none (f : A -> bool) (l : list A) :
  (forall z, In z l -> f z = false) -> filter f l = [].
Proof.
  induction l as [|y l IH]; intros H; [reflexivity|]. simpl.
  rewrite (H y (or_introl eq_refl)). apply IH. intros z Hz.
  apply H. now right.
Qed.

Lemma has_key_true (k : K) (x : A) : has_key' k x = true <-> key x = k.
Proof. apply eqb_eq. Qed.

Lemma has_key_false (k : K) (x : A) : has_key' k x = false <-> key x <> k.
Proof.
  unfold has_key. destruct (eqb (key x) k) eqn:E.
  - apply eqb_eq in E. split; [discriminate | tauto].
  - split; [|reflexivity]. intros _ H. apply eqb_eq in H. congruence.
Qed.

Lemma has_key_own (x : A) : has_key' (key x) x = true.
Proof. now apply has_key_true. Qed.

Lemma insert_perm (x : A) (l : list A) : Permutation (insert' x l) (x :: l).
Proof.
  induction l as [|y l IH]; simpl; [reflexivity|].
  destruct (ltb (key y) (key x)); [|reflexivity].
  rewrite IH. apply perm_swap.
Qed.

Lemma sorted_perm (l : list A) : Permutation (sorted' l) l.
Proof.
  induction l as [|x l IH]; simpl; [reflexivity|].
  rewrite insert_perm. now constructor.
Qed.

(** Stability: inserting keeps the elements of every key in order. *)
Lemma filter_insert (k : K) (x : A) (l : list A) :
  filter (has_key' k) (insert' x l) = filter (has_key' k) (x :: l).
Proof.
  induction l as [|y l IH]; [reflexivity|]. simpl in *.
  destruct (ltb (key y) (key x)) eqn:E; [|reflexivity].
  simpl. rewrite IH.
  destruct (has_key' k y) eqn:Hy, (has_key' k x) eqn:Hx; try reflexivity.
  apply has_key_true in Hy, Hx. rewrite Hy, Hx, ltb_irrefl in E.
  discriminate.
Qed.

Lemma filter_sorted (k : K) (l : list A) :
  filter (has_key' k) (sorted' l) = filter (has_key' k) l.
Proof.
  induction l as [|x l IH]; [reflexivity|].
  simpl. rewrite filter_insert. simpl. now rewrite IH.
Qed.

Lemma key_le_trans (x y z : A) : key_le' x y -> key_le' y z -> key_le' x z.
Proof.
  unfold key_le. intros Hxy Hyz.
  destruct (ltb (key z) (key x)) eqn:Hzx; [|reflexivity].
  destruct (ltb (key x) (key y)) eqn:E.
  - now rewrite (ltb_trans Hzx E) in Hyz.
  - rewrite (ltb_connex E Hxy) in Hzx. congruence.
Qed.

Lemma ltb_key_le (x y : A) : ltb (key x) (key y) = true -> key_le' x y.
Proof.
  unfold key_le. intros H.
  destruct (ltb (key y) (key x)) eqn:E; [|reflexivity].
  pose proof (ltb_trans H E) as C. rewrite ltb_irrefl in C. discriminate.
Qed.

Lemma insert_sorted (x : A) (l : list A) :
  StronglySorted key_le' l -> StronglySorted key_le' (insert' x l).
Proof.
  induction 1 as [|y l Hl IH Hy]; simpl.
  - repeat constructor.
  - destruct (ltb (key y) (key x)) eqn:E.
    + constructor; [exact IH|].
      apply (Permutation_Forall (Permutation_sym (insert_perm x l))).
      constructor; [now apply ltb_key_le | exact Hy].
    + constructor; [now constructor|].
      constructor; [exact E|].
      eapply Forall_impl; [|exact Hy].
      intros z. now apply key_le_trans.
Qed.

Lemma sorted_StronglySorted (l : list A) : StronglySorted key_le' (sorted' l).
Proof.
  induction l as [|x l IH]; simpl; [constructor | now apply insert_sorted].
Qed.

(** Grouping cuts the list into pieces: nothing is lost or moved. *)
Lemma groupby_concat (l : list A) : List.concat (map snd (groupby' l)) = l.
Proof.
  induction l as [|x l IH]; [reflexivity|]. simpl.
  destruct (groupby' l) as [|[k g] gs]; simpl in *.
  - now rewrite <- IH.
  - destruct (eqb (key x) k); simpl; now rewrite <- IH.
Qed.

Lemma groupby_step (x : A) (l : list A) :
  groupby' (x :: l) =
  match groupby' l with
  | (k, g) :: gs =>
      if eqb (key x) k then (key x, x :: g) :: gs
      else (key x, [x]) :: (k, g) :: gs
  | [] => [(key x, [x])]
  end.
Proof. reflexivity. Qed.

Lemma groupby_cons (x : A) (l : list A) :
  exists g gs, groupby' (x :: l) = (key x, x :: g) :: gs.
Proof.
  simpl. destruct (groupby' l) as [|[k g] gs]; [now eexists; eexists|].
  destruct (eqb (key x) k); eexists; eexists; reflexivity.
Qed.

Lemma groupby_keys (l : list A) (k : K) :
  In k (map fst (groupby' l)) <-> In k (map key l).
Proof.
  induction l as [|x l IH]; [reflexivity|].
  simpl. destruct (groupby' l) as [|[k' g] gs] eqn:E; simpl in *.
  - rewrite <- IH. tauto.
  - destruct (eqb (key x) k') eqn:Ek; simpl.
    + apply eqb_eq in Ek. rewrite <- IH. intuition congruence.
    + rewrite <- IH. tauto.
Qed.

(** On any list, sorted or not, the groups are the maximal runs: none is
    empty, each holds elements of its own key, and neighbouring groups
    have different keys. *)
Lemma groupby_runs (l : list A) :
  Forall (fun kg => snd kg <> [] /\ Forall (fun x => key x = fst kg) (snd kg))
    (groupby' l)
  /\ Sorted (fun k k' => k <> k') (map fst (groupby' l)).
Proof.
  induction l as [|x l [IHg IHk]]; [split; constructor|].
  rewrite (groupby_step x l).
  destruct (groupby' l) as [|[k g] gs] eqn:E.
  - split; repeat constructor; simpl; auto. discriminate.
  - inversion IHg as [|? ? [Hne Hg] Hgs]; subst. cbn [fst snd] in *.
    destruct (eqb (key x) k) eqn:Ek.
    + apply eqb_eq in Ek. split.
      * constructor; [|exact Hgs]. cbn [fst snd].
        split; [discriminate|]. constructor; [reflexivity|].
        now rewrite Ek.
      * cbn [map fst] in *. now rewrite Ek.
    + split.
      * constructor; [|exact IHg]. cbn [fst snd].
        split; [discriminate | repeat constructor].
      * cbn [map fst] in *. constructor; [exact IHk|].
        constructor. intros H. apply eqb_eq in H. congruence.
Qed.
(** On a sorted' list every key heads exactly one group, and the group
    holds the elements of that key in the order of the list. *)
Lemma groupby_sorted (l : list A) :
  StronglySorted key_le' l ->
  NoDup (map fst (groupby' l))
  /\ Forall (fun kg => snd kg = filter (has_key' (fst kg)) l /\ snd kg <> [])
       (groupby' l).
Proof.
  induction 1 as [|x l Hl IH Hx]; [split; constructor|].
  destruct IH as [IHk IHg].
  destruct l as [|y l'].
  { simpl. split; [repeat constructor; auto|].
    repeat constructor; simpl; [now rewrite has_key_own | discriminate]. }
  destruct (groupby_cons y l') as [g [gs E]].
  rewrite (groupby_step x (y :: l')). rewrite E in *.
  cbn [map fst] in IHk. inversion IHk as [|? ? Hnotin Hnodup]; subst.
  inversion IHg as [|? ? [Hhead _] Htail]; subst. cbn [fst snd] in Hhead.
  destruct (eqb (key x) (key y)) eqn:Ek.
  - apply eqb_eq in Ek. split.
    + cbn [map fst]. rewrite Ek. exact IHk.
    + constructor.
      * cbn [fst snd]. rewrite (filter_step _ x), has_key_own. rewrite Ek.
        rewrite <- Hhead. split; [reflexivity | discriminate].
      * apply Forall_forall. intros [k g1] Hin.
        rewrite Forall_forall in Htail. destruct (Htail _ Hin) as [Hg Hne].
        cbn [fst snd] in *. split; [|exact Hne].
        rewrite (filter_step _ x). replace (has_key' k x) with false; [exact Hg|].
        symmetry. apply has_key_false. rewrite Ek. intros Hk. subst k.
        apply Hnotin. apply in_map_iff. now exists (key y, g1).
  - assert (Hxy : ltb (key x) (key y) = true).
    { destruct (ltb (key x) (key y)) eqn:E1; [reflexivity|].
      inversion Hx as [|? ? Hxy' _]; subst.
      rewrite (ltb_connex E1 Hxy'), (proj2 (eqb_eq _ _) eq_refl) in Ek.
      discriminate. }
    assert (Hfresh : forall z, In z (y :: l') -> key z <> key x).
    { intros z Hz Ezx.
      assert (Hyz : key_le' y z).
      { destruct Hz as [->|Hz]; [apply ltb_irrefl|].
        inversion Hl as [|? ? _ Hy]; subst.
        rewrite Forall_forall in Hy. now apply Hy. }
      unfold key_le in Hyz. rewrite Ezx in Hyz. congruence. }
    assert (Hnil : filter (has_key' (key x)) (y :: l') = []).
    { apply filter_none. intros z Hz. apply has_key_false.
      now apply Hfresh. }
    split.
    + cbn [map fst]. constructor; [|exact IHk].
      change (key y :: map fst gs) with (map fst ((key y, y :: g) :: gs)).
      rewrite <- E, groupby_keys. intros Hin.
      apply in_map_iff in Hin. destruct Hin as [z [Ez Hz]].
      now apply (Hfresh z).
    + constructor.
      * cbn [fst snd]. rewrite (filter_step _ x), has_key_own, Hnil.
        split; [reflexivity | discriminate].
      * apply Forall_forall. intros [k g1] Hin.
        rewrite Forall_forall in IHg. destruct (IHg _ Hin) as [Hg Hne].
        cbn [fst snd] in *. split; [|exact Hne].
        rewrite (filter_step _ x). replace (has_key' k x) with false; [exact Hg|].
        symmetry. apply has_key_false. intros Hk. subst k.
        assert (Hk : In (key x) (map fst (groupby' (y :: l')))).
        { rewrite E. apply in_map_iff. now exists (key x, g1). }
        rewrite groupby_keys in Hk. apply in_map_iff in Hk.
        destruct Hk as [z [Ez Hz]]. now apply (Hfresh z).
Qed.

End PartitionFacts.

(** ** The order on [str] *)

Lemma str_ltb_irrefl (a : str) : str_ltb a a = false.
Proof.
  induction a as [|x a IH]; [reflexivity|]. simpl.
  now rewrite N.ltb_irrefl, N.eqb_refl.
Qed.

Lemma str_ltb_trans (a b c : str) :
  str_ltb a b = true -> str_ltb b c = true -> str_ltb a c = true.
Proof.
  revert b c. induction a as [|x a IH]; intros [|y b] [|z c]; simpl;
    try discriminate; try reflexivity.
  destruct (N.ltb_spec x y), (N.ltb_spec y z), (N.ltb_spec x z);
    try reflexivity; try lia;
    destruct (N.eqb_spec x y), (N.eqb_spec y z), (N.eqb_spec x z);
    try discriminate; try lia; intros; eauto.
Qed.

Lemma str_ltb_connex (a b : str) :
  str_ltb a b = false -> str_ltb b a = false -> a = b.
Proof.
  revert b. induction a as [|x a IH]; intros [|y b]; simpl;
    try discriminate; try reflexivity.
  destruct (N.ltb_spec x y), (N.ltb_spec y x); try discriminate; try lia.
  destruct (N.eqb_spec x y), (N.eqb_spec y x); try discriminate; try lia.
  intros. subst. f_equal. now apply IH.
Qed.

(** ** Partitioning a batch *)

Section BatchFacts.

Context {G : Grammars} {C : Converter} {U : UuidSource}.

#[local] Abbreviation has_date := (has_key extract_item_date str_eqb).

Lemma label_rows_spec (rows : list Json) (n : nat) :
  snd (label_rows rows n) = n + List.length rows
  /\ map json (fst (label_rows rows n)) = rows
  /\ map insertId (fst (label_rows rows n))
     = map uuid4_str (seq n (List.length rows)).
Proof.
  revert n. induction rows as [|r rows IH]; intros n; simpl.
  - repeat split. lia.
  - destruct (IH (S n)) as [H1 [H2 H3]].
    destruct (label_rows rows (S n)) as [out n']. simpl in *.
    repeat split; [lia | now rewrite H2 | now rewrite H3].
Qed.

(** On such groups the generator runs to its end: one sub-batch per
    group, under the group's key, one row per record in the group's
    order, one UUID drawn per row. *)
Lemma yield_groups_spec (groups : list (str * list Download)) (n : nat) :
  well_grouped groups ->
  exists out,
    yield_groups groups n
    = (out, None, n + List.length (List.concat (map snd groups)))
    /\ map fst out = map fst groups
    /\ map (fun sub => map json (snd sub)) out
       = map (fun kg => map unstructure (snd kg)) groups
    /\ map insertId (List.concat (map snd out))
       = map uuid4_str
           (seq n (List.length (List.concat (map snd groups)))).
Proof.
  intros H. revert n. induction H as [|[k items] groups [Hne Hk] _ IH];
    intros n.
  - exists []. simpl. repeat split. f_equal. lia.
  - simpl in Hne, Hk. destruct items as [|first items]; [congruence|].
    cbn [yield_groups].
    destruct (label_rows_spec (map unstructure (first :: items)) n)
      as [L1 [L2 L3]].
    destruct (label_rows (map unstructure (first :: items)) n)
      as [rows n1]. cbn [fst snd] in L1, L2, L3.
    rewrite length_map in L1, L3.
    destruct (IH n1) as [out [E [K [J I]]]]. rewrite E.
    exists ((extract_item_date first, rows) :: out).
    cbn [map fst snd List.concat]. rewrite length_app.
    repeat split.
    + f_equal. lia.
    + f_equal; [|exact K]. apply Hk. now left.
    + f_equal; [exact L2 | exact J].
    + rewrite map_app, L3, I, L1, seq_app, map_app. reflexivity.
Qed.

Lemma groupby_sorted_well_grouped (items : list Download) :
  well_grouped
    (groupby extract_item_date str_eqb
       (sorted extract_item_date str_ltb items)).
Proof.
  destruct (groupby_sorted str_eqb str_ltb_irrefl str_ltb_connex str_eqb_eq
              (sorted_StronglySorted extract_item_date str_ltb
                 str_ltb_irrefl str_ltb_trans str_ltb_connex items)) as [_ H].
  unfold well_grouped. eapply Forall_impl; [|exact H].
  intros [k g] [Hg Hne]. cbn [fst snd] in *. split; [exact Hne|].
  intros x Hx. rewrite Hg in Hx. apply filter_In in Hx.
  destruct Hx as [_ Hx]. now apply str_eqb_eq in Hx.
Qed.

(** What [compute_batches] yields, in terms of the input alone. *)
Lemma compute_batches_spec (items : list Download) (n : nat) :
  exists out,
    compute_batches items n = (out, None, n + List.length items)
    /\ NoDup (map fst out)
    /\ (forall k, In k (map fst out) <-> In k (map extract_item_date items))
    /\ Forall (fun sub =>
                 snd sub <> []
                 /\ map json (snd sub)
                    = map unstructure (filter (has_date (fst sub)) items))
         out
    /\ Permutation (map json (List.concat (map snd out)))
         (map unstructure items)
    /\ map insertId (List.concat (map snd out))
       = map uuid4_str (seq n (List.length items)).
Proof.
  unfold compute_batches.
  set (srt := sorted extract_item_date str_ltb items).
  assert (Hperm : Permutation srt items)
    by apply sorted_perm.
  destruct (yield_groups_spec n (groupby_sorted_well_grouped items))
    as [out [E [K [J I]]]].
  fold srt in E, K, J, I.
  rewrite (groupby_concat extract_item_date str_eqb srt) in E, I.
  rewrite (Permutation_length Hperm) in E, I.
  destruct (groupby_sorted str_eqb str_ltb_irrefl str_ltb_connex str_eqb_eq
              (sorted_StronglySorted extract_item_date str_ltb
                 str_ltb_irrefl str_ltb_trans str_ltb_connex items)) as [Hnd Hgr].
  fold srt in Hnd, Hgr.
  exists out. split; [exact E|]. split; [now rewrite K|].
  split.
  { intros k. rewrite K, (groupby_keys extract_item_date str_eqb str_eqb_eq srt).
    split; intros H; eapply Permutation_in; try exact H;
      [apply Permutation_map | apply Permutation_map, Permutation_sym];
      exact Hperm. }
  split.
  { clear E I Hnd. revert out K J.
    induction Hgr as [|[k g] groups [Hg Hne] _ IH]; intros [|[k' rows] out] K J;
      try discriminate; constructor.
    - cbn [map fst snd] in *. injection K as K1 K2. injection J as J1 J2.
      subst k'. split.
      + intros ->. destruct g; [congruence | discriminate].
      + rewrite J1, Hg. unfold srt.
        now rewrite (filter_sorted extract_item_date str_ltb str_eqb
                       str_ltb_irrefl str_eqb_eq).
    - apply IH; [now inversion K | now inversion J]. }
  split; [|exact I].
  rewrite concat_map, map_map, J, <- map_map, <- concat_map.
  rewrite (groupby_concat extract_item_date str_eqb srt).
  now apply Permutation_map.
Qed.

End BatchFacts.

Section BatchClaims.

Context {G : Grammars} {C : Converter} {U : UuidSource}.

#[local] Abbreviation has_date' := (has_key extract_item_date str_eqb).

Lemma NoDup_concat_piece (A : Type) (ls : list (list A)) :
  NoDup (List.concat ls) -> Forall (@NoDup A) ls.
Proof.
  induction ls as [|l ls IH]; intros H; constructor; simpl in H.
  - now apply NoDup_app_remove_r in H.
  - apply IH. now apply NoDup_app_remove_l in H.
Qed.

(** Dates [D1, D2, D1] give two sub-batches: the two records of [D1] in
    arrival order, and the record of [D2]. *)
Lemma compute_batches_D1_D2_D1 (a b c : Download) (n : nat) :
  extract_item_date a = extract_item_date c ->
  extract_item_date a <> extract_item_date b ->
  exists rows1 rows2 k1 k2,
    fst (fst (compute_batches [a; b; c] n)) = [(k1, rows1); (k2, rows2)]
    /\ ((k1 = extract_item_date a
         /\ map json rows1 = [unstructure a; unstructure c]
         /\ map json rows2 = [unstructure b])
        \/ (k2 = extract_item_date a
            /\ map json rows2 = [unstructure a; unstructure c]
            /\ map json rows1 = [unstructure b])).
Proof.
  intros Hac Hab. unfold compute_batches.
  assert (Hirr := str_ltb_irrefl (extract_item_date a)).
  assert (Eab : str_eqb (extract_item_date a) (extract_item_date b) = false).
  { destruct (str_eqb (extract_item_date a) (extract_item_date b)) eqn:E;
      [apply str_eqb_eq in E; congruence | reflexivity]. }
  assert (Eba : str_eqb (extract_item_date b) (extract_item_date a) = false).
  { destruct (str_eqb (extract_item_date b) (extract_item_date a)) eqn:E;
      [apply str_eqb_eq in E; congruence | reflexivity]. }
  assert (Eaa : str_eqb (extract_item_date a) (extract_item_date a) = true)
    by now apply str_eqb_eq.
  destruct (str_ltb (extract_item_date a) (extract_item_date b)) eqn:L1.
  - (* D1 sorts first: [a; c; b] *)
    assert (L2 : str_ltb (extract_item_date b) (extract_item_date a) = false).
    { destruct (str_ltb (extract_item_date b) (extract_item_date a)) eqn:L2;
        [|reflexivity].
      now rewrite (str_ltb_trans _ _ _ L1 L2) in Hirr. }
    repeat progress
      (cbn [sorted fold_right insert groupby];
       rewrite <- ?Hac, ?Hirr, ?L1, ?L2, ?Eaa, ?Eab, ?Eba).
    cbn. do 4 eexists. split; [reflexivity|]. left.
    repeat split; reflexivity.
  - (* D2 sorts first: [b; a; c] *)
    assert (L2 : str_ltb (extract_item_date b) (extract_item_date a) = true).
    { destruct (str_ltb (extract_item_date b) (extract_item_date a)) eqn:L2;
        [reflexivity|].
      elim Hab. now apply str_ltb_connex. }
    repeat progress
      (cbn [sorted fold_right insert groupby];
       rewrite <- ?Hac, ?Hirr, ?L1, ?L2, ?Eaa, ?Eab, ?Eba).
    cbn. do 4 eexists. split; [reflexivity|]. right.
    repeat split; reflexivity.
Qed.

(** C8.  The sub-batches carry pairwise distinct keys, the keys are
    exactly the keys that occur in the batch, and the rows of the
    sub-batch of a key are the records of that key in their order of
    arrival. *)
Theorem compute_batches_one_sub_batch_per_key
    (items : list Download) (n : nat) :
  let out := fst (fst (compute_batches items n)) in
  NoDup (map fst out)
  /\ (forall k, In k (map fst out) <-> In k (map extract_item_date items))
  /\ List.length out
     = List.length
         (nodup (list_eq_dec N.eq_dec) (map extract_item_date items))
  /\ (forall k rows, In (k, rows) out ->
        map json rows = map unstructure (filter (has_date' k) items)).
Proof.
  destruct (compute_batches_spec items n)
    as [out [E [Hnd [Hkeys [Hrows _]]]]].
  rewrite E. cbn [fst]. split; [exact Hnd|]. split; [exact Hkeys|]. split.
  - rewrite <- (length_map fst out). apply Permutation_length.
    apply NoDup_Permutation; [exact Hnd | apply NoDup_nodup |].
    intros k. rewrite nodup_In. apply Hkeys.
  - intros k rows Hin. rewrite Forall_forall in Hrows.
    now destruct (Hrows _ Hin).
Qed.

(** C10.  The generator ends without raising, every sub-batch it yields
    is non-empty, and the rows of all sub-batches together are the
    input records, each once. *)
Theorem compute_batches_partitions (items : list Download) (n : nat) :
  exists out n',
    compute_batches items n = (out, None, n')
    /\ Forall (fun sub => snd sub <> []) out
    /\ Permutation (map json (List.concat (map snd out)))
         (map unstructure items).
Proof.
  destruct (compute_batches_spec items n)
    as [out [E [_ [_ [Hrows [Hperm _]]]]]].
  exists out, (n + List.length items). split; [exact E|].
  split; [|exact Hperm].
  eapply Forall_impl; [|exact Hrows]. now intros sub [H _].
Qed.

(** C9.  One UUID is drawn per row, in row order, starting where the
    counter stood; when the source never repeats a value, no two rows of
    a sub-batch (indeed no two rows of the whole batch) share an
    identifier. *)
Theorem compute_batches_insert_ids_fresh (items : list Download) (n : nat) :
  (forall i j, uuid4_str i = uuid4_str j -> i = j) ->
  exists out,
    compute_batches items n = (out, None, n + List.length items)
    /\ map insertId (List.concat (map snd out))
       = map uuid4_str (seq n (List.length items))
    /\ NoDup (map insertId (List.concat (map snd out)))
    /\ Forall (fun sub => NoDup (map insertId (snd sub))) out.
Proof.
  intros Hinj.
  destruct (compute_batches_spec items n) as [out [E [_ [_ [_ [_ Hids]]]]]].
  exists out. split; [exact E|]. split; [exact Hids|].
  assert (Hnd : NoDup (map insertId (List.concat (map snd out)))).
  { rewrite Hids. apply Finite.Injective_map_NoDup; [exact Hinj|].
    apply seq_NoDup. }
  split; [exact Hnd|].
  rewrite concat_map, map_map in Hnd. apply NoDup_concat_piece in Hnd.
  rewrite Forall_map in Hnd. exact Hnd.
Qed.

End BatchClaims.

Lemma str_of_string_inj (s s' : string) :
  str_of_string s = str_of_string s' -> s = s'.
Proof.
  unfold str_of_string. intros H.
  rewrite <- (string_of_list_ascii_of_string s),
          <- (string_of_list_ascii_of_string s').
  f_equal. revert H. generalize (list_ascii_of_string s) as l.
  generalize (list_ascii_of_string s') as l'.
  induction l' as [|c' l' IH]; intros [|c l] H; simpl in H;
    try discriminate; [reflexivity|].
  injection H as Hc Hl. f_equal; [|now apply IH].
  rewrite <- (ascii_N_embedding c), <- (ascii_N_embedding c'). now f_equal.
Qed.

Lemma str_of_N_inj (n n' : N) : Arrow.str_of_N n = Arrow.str_of_N n' -> n = n'.
Proof.
  unfold Arrow.str_of_N. intros H. apply str_of_string_inj in H.
  assert (Hnn : forall m, N.to_uint m <> Decimal.Nil).
  { intros [|p]; [discriminate | apply DecimalPos.Unsigned.to_uint_nonnil]. }
  apply DecimalN.Unsigned.to_uint_inj.
  pose proof (NilZero.usu _ (Hnn n)) as H1.
  pose proof (NilZero.usu _ (Hnn n')) as H2.
  rewrite H in H1. congruence.
Qed.

Lemma Example_uuids_inj (i j : nat) :
  uuid4_str (UuidSource := Example.uuids) i
  = uuid4_str (UuidSource := Example.uuids) j -> i = j.
Proof.
  simpl. intros H. apply str_of_N_inj in H. now apply Nat2N.inj.
Qed.

(** Three records, two dates: the identifiers are the three UUIDs drawn. *)
Lemma compute_batches_insert_ids_fresh_witness :
  exists out,
    compute_batches (G := Example.grammars) (C := Example.converter)
      (U := Example.uuids) [Example.d1; Example.d2; Example.d1'] 0
    = (out, None, 3)
    /\ map insertId (List.concat (map snd out))
       = map (uuid4_str (UuidSource := Example.uuids)) [0; 1; 2]
    /\ NoDup (map insertId (List.concat (map snd out)))
    /\ Forall (fun sub => NoDup (map insertId (snd sub))) out.
Proof.
  exact (compute_batches_insert_ids_fresh
           (G := Example.grammars) (C := Example.converter)
           (U := Example.uuids)
           [Example.d1; Example.d2; Example.d1'] 0 Example_uuids_inj).
Defined.

(** The same batch, evaluated: 2018-01-01 arrives first and third,
    2018-12-31 second. *)
Example compute_batches_two_dates :
  compute_batches (G := Example.grammars) (C := Example.converter)
    (U := Example.uuids) [Example.d1; Example.d2; Example.d1'] 0
  = ([(str_of_string "201811",
       [mk_row (C := Example.converter) (str_of_string "0") (1, 0%N);
        mk_row (C := Example.converter) (str_of_string "1") (3, 3600%N)]);
      (str_of_string "201812365",
       [mk_row (C := Example.converter) (str_of_string "2") (2, 0%N)])],
     None, 3).
Proof. reflexivity. Qed.

(** ** Dispatch with retries *)

Section DispatchFacts.

Context {G : Grammars} {C : Converter} {B : Sink} {R : RandomSource}.

Variables (table : Table) (suffix : str) (batch : list row).
Variable api_timeout : option Q.

#[local] Abbreviation attempt' k :=
  (send_attempt k table suffix batch api_timeout).
#[local] Abbreviation outcome k := (fst (attempt' k)).

Lemma is_TooSlowError_eq (e : exn) :
  is_TooSlowError e = true <-> e = TooSlowError.
Proof. destruct e; simpl; split; congruence. Qed.

(** The attempt without its time. *)
Lemma send_attempt_body (k : nat) :
  attempt' k
  = let deadline := default 15%Q api_timeout in
    if Qle_bool 0 deadline then
      let '(elapsed, reply) := bq_insert_all k table batch suffix in
      let call := SinkCall k table batch suffix deadline in
      if Qle_bool deadline elapsed then (Raise TooSlowError, [call])
      else
        match reply with
        | Inserted => (Ok tt, [call])
        | Failed e => (Raise e, [call])
        end
    else (Raise ValueError, []).
Proof.
  unfold send_attempt, timed_attempt. cbv zeta.
  destruct (Qle_bool 0 (default 15%Q api_timeout)); [|reflexivity].
  destruct (bq_insert_all k table batch suffix) as [elapsed reply].
  destruct (Qle_bool _ elapsed); [reflexivity|].
  destruct reply; reflexivity.
Qed.

Lemma retrying_step (max k : nat) :
  retrying max table suffix batch api_timeout k =
  match attempt' k with
  | (Ok _, log) => (Ok tt, log)
  | (Raise e, log) =>
      if retry_if_exception_type_TooSlowError e then
        if stop_after_attempt max k then (Raise e, log)
        else
          let '(r, log') :=
            retrying max table suffix batch api_timeout (S k) in
          (r, log ++ Sleep (wait_random_exponential 1 60 k) :: log')
      else (Raise e, log)
  end.
Proof.
  simp retrying.
  destruct (attempt' k) as [[u|e] log]; simpl; [reflexivity|].
  destruct (retry_if_exception_type_TooSlowError e); simpl; [|reflexivity].
  destruct (stop_after_attempt max k) eqn:E; simpl; [reflexivity|].
  simp retrying. reflexivity.
Qed.

(** One attempt calls the sink at most once, with the arguments it was
    given. *)
Lemma send_attempt_log (k : nat) :
  snd (attempt' k) = []
  \/ snd (attempt' k)
     = [SinkCall k table batch suffix (default 15%Q api_timeout)].
Proof.
  rewrite send_attempt_body. cbv zeta.
  destruct (Qle_bool 0 (default 15%Q api_timeout)); [|now left].
  destruct (bq_insert_all k table batch suffix) as [elapsed reply].
  destruct (Qle_bool _ elapsed); [now right|].
  destruct reply; now right.
Qed.

(** What an attempt can raise. *)
Lemma send_attempt_raises (k : nat) (e : exn) :
  outcome k = Raise e ->
  e = TooSlowError \/ e = ValueError
  \/ snd (bq_insert_all k table batch suffix) = Failed e.
Proof.
  rewrite send_attempt_body. cbv zeta.
  destruct (Qle_bool 0 (default 15%Q api_timeout));
    [|simpl; intros [= <-]; auto].
  destruct (bq_insert_all k table batch suffix) as [elapsed reply].
  destruct (Qle_bool _ elapsed); [simpl; intros [= <-]; auto|].
  destruct reply; simpl; [discriminate|]. intros [= <-]. auto.
Qed.

(** An attempt whose sink call is still running at the deadline fails
    with the timeout class. *)
Lemma send_attempt_deadline (k : nat) :
  (0 <= default 15 api_timeout)%Q ->
  (default 15 api_timeout
   <= fst (bq_insert_all k table batch suffix))%Q ->
  outcome k = Raise TooSlowError.
Proof.
  intros H0 H. rewrite send_attempt_body. cbv zeta.
  rewrite (proj2 (Qle_bool_iff _ _) H0).
  destruct (bq_insert_all k table batch suffix) as [elapsed reply].
  simpl in H. now rewrite (proj2 (Qle_bool_iff _ _) H).
Qed.

Lemma sleeps_of_attempt (k : nat) : sleeps_of (snd (attempt' k)) = [].
Proof. destruct (send_attempt_log k) as [-> | ->]; reflexivity. Qed.

Lemma sleeps_of_app (l1 l2 : list dispatch_event) :
  sleeps_of (l1 ++ l2) = sleeps_of l1 ++ sleeps_of l2.
Proof. apply flat_map_app. Qed.

#[local] Abbreviation shape max k run :=
  (run_shape max table suffix batch api_timeout k run).

(** A run that ends with attempt [k]. *)
Lemma run_shape_stop (max k : nat) (run : D unit) :
  snd run = snd (attempt' k) ->
  fst run = outcome k ->
  (outcome k = Raise TooSlowError -> max <= k) ->
  shape max k run.
Proof.
  intros Hlog Hres Hstop. unfold run_shape.
  rewrite Hlog, sleeps_of_attempt. cbn [List.length seq map].
  rewrite Nat.add_0_r.
  repeat split; try lia; try assumption.
  all: destruct (send_attempt_log k) as [Hl|Hl]; rewrite Hl in H;
    [contradiction | destruct H as [H|[]]]; now inversion H.
Qed.

(** A run that goes on after attempt [k] timed out. *)
Lemma run_shape_step (max k : nat) (r : result unit)
    (log' : list dispatch_event) :
  outcome k = Raise TooSlowError ->
  k < max ->
  shape max (S k) (r, log') ->
  shape max k
    (r, snd (attempt' k)
        ++ Sleep (wait_random_exponential 1 60 k) :: log').
Proof.
  intros Hk Hlt [I1 [I2 [I3 [I4 [I5 I6]]]]]. cbn [fst snd] in *.
  unfold run_shape. cbn [fst snd].
  rewrite sleeps_of_app, sleeps_of_attempt. cbn [app].
  change (sleeps_of (Sleep (wait_random_exponential 1 60 k) :: log'))
    with (wait_random_exponential 1 60 k :: sleeps_of log').
  cbn [List.length seq map]. rewrite <- !Nat.add_succ_comm.
  split; [now rewrite <- I1|]. split; [lia|]. split.
  { intros i Hi. destruct (Nat.eq_dec i k) as [->|Hne];
      [exact Hk | apply I3; lia]. }
  split; [exact I4|]. split; [exact I5|].
  intros j t b su dl Hin. apply in_app_or in Hin.
  destruct Hin as [Hin|[Hin|Hin]].
  - destruct (send_attempt_log k) as [Hl|Hl]; rewrite Hl in Hin;
      [contradiction | destruct Hin as [Hin|[]]].
    inversion Hin; subst. repeat split; lia.
  - discriminate Hin.
  - destruct (I6 _ _ _ _ _ Hin) as [? [? [? [? ?]]]].
    repeat split; try assumption; lia.
Qed.

Lemma retrying_shape (max d : nat) :
  forall k, max - k = d ->
  shape max k (retrying max table suffix batch api_timeout k).
Proof.
  induction d as [|d IH]; intros k Hd; rewrite retrying_step.
  all: destruct (attempt' k) as [[[]|e] log] eqn:E.
  1, 3: apply run_shape_stop; rewrite E; cbn [fst snd];
        try reflexivity; discriminate.
  all: unfold retry_if_exception_type_TooSlowError, stop_after_attempt.
  all: destruct (is_TooSlowError e) eqn:Et;
    [apply is_TooSlowError_eq in Et; subst e
    | apply run_shape_stop; rewrite E; cbn [fst snd]; try reflexivity;
      intros [= ->]; discriminate].
  all: destruct (Nat.leb_spec max k) as [Hle|Hlt];
    [apply run_shape_stop; rewrite E; cbn [fst snd]; auto | ].
  - lia.
  - specialize (IH (S k) ltac:(lia)).
    destruct (retrying max table suffix batch api_timeout (S k))
      as [r log'].
    replace log with (snd (attempt' k)) by now rewrite E.
    apply run_shape_step; [now rewrite E | exact Hlt | exact IH].
Qed.

(** With a deadline that [trio.fail_after] accepts, an attempt is one
    sink call. *)
Lemma send_attempt_calls (k : nat) :
  (0 <= default 15 api_timeout)%Q ->
  snd (send_attempt k table suffix batch api_timeout)
  = [SinkCall k table batch suffix (default 15%Q api_timeout)].
Proof.
  intros H. rewrite send_attempt_body. cbv zeta.
  rewrite (proj2 (Qle_bool_iff _ _) H).
  destruct (bq_insert_all k table batch suffix) as [elapsed reply].
  destruct (Qle_bool _ elapsed); [reflexivity|].
  destruct reply; reflexivity.
Qed.

Lemma retrying_log (max d : nat) :
  (0 <= default 15 api_timeout)%Q ->
  forall k, max - k = d ->
  exists s,
    (k <= max -> k + s <= max)
    /\ snd (retrying max table suffix batch api_timeout k)
       = attempts_log table suffix batch (default 15%Q api_timeout) k s.
Proof.
  intros Hdl. induction d as [|d IH]; intros k Hd; rewrite retrying_step.
  all: pose proof (send_attempt_calls k Hdl) as Hlog.
  all: destruct (send_attempt k table suffix batch api_timeout)
         as [[[]|e] log]; cbn [snd] in Hlog; subst log.
  1, 3: exists 0; split; [lia | reflexivity].
  all: destruct (retry_if_exception_type_TooSlowError e);
    [|exists 0; split; [lia | reflexivity]].
  all: unfold stop_after_attempt;
    destruct (Nat.leb_spec max k) as [Hle|Hlt];
    [exists 0; split; [lia | reflexivity]|].
  - lia.
  - destruct (IH (S k) ltac:(lia)) as [s [Hs Hl]].
    destruct (retrying max table suffix batch api_timeout (S k))
      as [r log']. cbn [snd] in *. subst log'.
    exists (S s). split; [lia | reflexivity].
Qed.

(** An attempt that ends before the deadline ends as the sink call
    does. *)
Lemma send_attempt_in_time (k : nat) :
  (0 <= default 15 api_timeout)%Q ->
  (fst (bq_insert_all k table batch suffix)
   < default 15 api_timeout)%Q ->
  outcome k
  = match snd (bq_insert_all k table batch suffix) with
    | Inserted => Ok tt
    | Failed e => Raise e
    end.
Proof.
  intros H0 H. rewrite send_attempt_body. cbv zeta.
  rewrite (proj2 (Qle_bool_iff _ _) H0).
  destruct (bq_insert_all k table batch suffix) as [elapsed reply].
  cbn [fst snd] in *.
  destruct (Qle_bool (default 15%Q api_timeout) elapsed) eqn:E.
  - apply Qle_bool_iff in E. exfalso. eapply Qlt_not_le; eassumption.
  - destruct reply; reflexivity.
Qed.

Lemma sleeps_of_attempts_log (deadline : Q) (k s : nat) :
  sleeps_of (attempts_log table suffix batch deadline k s)
  = map (wait_random_exponential 1 60) (seq k s).
Proof.
  revert k. induction s as [|s IH]; intros k; [reflexivity|].
  cbn [attempts_log seq map].
  change (sleeps_of (SinkCall k table batch suffix deadline
                     :: Sleep (wait_random_exponential 1 60 k)
                     :: attempts_log table suffix batch deadline (S k) s))
    with (wait_random_exponential 1 60 k
          :: sleeps_of (attempts_log table suffix batch deadline (S k) s)).
  now rewrite IH.
Qed.

End DispatchFacts.

Section DispatchClaims.

Context {G : Grammars} {C : Converter} {B : Sink} {R : RandomSource}.

Variables (table : Table) (suffix : str) (batch : list row).
Variable api_timeout : option Q.

(** The wait after attempt [k] is drawn between zero and the smaller of
    [2 ** k] and 60 seconds. *)
Lemma wait_random_exponential_bounds (k : nat) :
  (0 <= wait_random_exponential 1 60 k)%Q
  /\ (wait_random_exponential 1 60 k <= 60)%Q
  /\ (wait_random_exponential 1 60 k <= inject_Z (2 ^ Z.of_nat k))%Q.
Proof.
  unfold wait_random_exponential, wait_exponential.
  set (p := inject_Z (2 ^ Z.of_nat k)).
  assert (Hp : (0 <= p)%Q).
  { unfold p. change 0%Q with (inject_Z 0). rewrite <- Zle_Qle. lia. }
  set (h := Qmax 0 (Qmin (1 * p) 60)).
  assert (H0 : (0 <= h)%Q) by apply Q.le_max_l.
  assert (H60 : (h <= 60)%Q).
  { apply Q.max_lub; [discriminate | apply Q.le_min_r]. }
  assert (Hhp : (h <= p)%Q).
  { apply Q.max_lub; [exact Hp|].
    eapply Qle_trans; [apply Q.le_min_l|]. rewrite Qmult_1_l.
    apply Qle_refl. }
  destruct (random_range k) as [R0 R1].
  assert (Hw0 : (0 <= h * random k)%Q) by now apply Qmult_le_0_compat.
  assert (Hwh : (h * random k <= h)%Q).
  { rewrite <- (Qmult_1_r h) at 2.
    apply Qmult_le_compat_nonneg; split;
      [exact H0 | apply Qle_refl | exact R0 | now apply Qlt_le_weak]. }
  repeat split; ring_simplify; [assumption | |];
    eapply Qle_trans; eassumption.
Qed.

Lemma nth_error_map_seq (A : Type) (f : nat -> A) (a n i : nat) (w : A) :
  nth_error (map f (seq a n)) i = Some w -> w = f (a + i).
Proof.
  revert a i. induction n as [|n IH]; intros a [|i]; simpl;
    try discriminate.
  - intros [= <-]. f_equal. lia.
  - intros H. apply IH in H. rewrite H. f_equal. lia.
Qed.

(** The wait after attempt [k], written out: the draw of
    [random.random()] times the smaller of [2 ** k] and 60. *)
Lemma wait_random_exponential_value (k : nat) :
  (wait_random_exponential 1 60 k
   == Qmin (inject_Z (2 ^ Z.of_nat k)) 60 * random k)%Q.
Proof.
  unfold wait_random_exponential, wait_exponential.
  set (p := inject_Z (2 ^ Z.of_nat k)).
  assert (Hp : (0 <= p)%Q).
  { unfold p. change 0%Q with (inject_Z 0). rewrite <- Zle_Qle. lia. }
  assert (Hm : (0 <= Qmin (1 * p) 60)%Q).
  { apply Q.min_glb; [now rewrite Qmult_1_l | discriminate]. }
  rewrite (Q.max_r _ _ Hm), Qmult_1_l. ring.
Qed.

(** C5.  With [outcome 1, 2, ...] the outcomes of the successive
    attempts.  An attempt is one call to the sink, with the rows, the
    key and the deadline of the dispatch (15 s unless configured); it
    fails with the timeout class when the call reaches the deadline, and
    ends as the call ends otherwise.  A wait is slept, and the next
    attempt made, only after an attempt that failed with the timeout
    class; the first attempt that returns or fails with another class
    ends the dispatch with that very outcome; when all fifteen attempts
    time out the last timeout is raised; never more than fifteen
    attempts are made.  The whole dispatch is the sink calls of attempts
    1, 2, ... in order with one wait between two of them, and the wait
    after attempt [i] is the draw of [random.random()] times the smaller
    of [2 ** i] and 60 seconds. *)
Theorem actually_send_batch_retry_policy :
  let deadline := default 15%Q api_timeout in
  let outcome k := fst (send_attempt k table suffix batch api_timeout) in
  let run := actually_send_batch table suffix batch api_timeout in
  let sleeps := sleeps_of (snd run) in
  (forall k,
      (0 <= deadline)%Q ->
      snd (send_attempt k table suffix batch api_timeout)
      = [SinkCall k table batch suffix deadline])
  /\ (forall k,
        (0 <= default 15 api_timeout)%Q ->
        (default 15 api_timeout
         <= fst (bq_insert_all k table batch suffix))%Q ->
        outcome k = Raise TooSlowError)
  /\ (forall k,
        (0 <= deadline)%Q ->
        (fst (bq_insert_all k table batch suffix) < deadline)%Q ->
        outcome k
        = match snd (bq_insert_all k table batch suffix) with
          | Inserted => Ok tt
          | Failed e => Raise e
          end)
  /\ (forall i, 1 <= i <= List.length sleeps ->
        outcome i = Raise TooSlowError)
  /\ (forall m, 1 <= m <= 15 ->
        (forall i, 1 <= i < m -> outcome i = Raise TooSlowError) ->
        outcome m <> Raise TooSlowError ->
        fst run = outcome m /\ List.length sleeps = m - 1)
  /\ ((forall i, 1 <= i <= 15 -> outcome i = Raise TooSlowError) ->
      fst run = Raise TooSlowError /\ List.length sleeps = 14)
  /\ List.length sleeps <= 14
  /\ ((0 <= deadline)%Q ->
      snd run
      = attempts_log table suffix batch deadline 1 (List.length sleeps))
  /\ (forall i w, nth_error sleeps i = Some w ->
        w = wait_random_exponential 1 60 (S i)
        /\ (w == Qmin (inject_Z (2 ^ Z.of_nat (S i))) 60 * random (S i))%Q
        /\ (0 <= w)%Q /\ (w <= 60)%Q
        /\ (w <= inject_Z (2 ^ Z.of_nat (S i)))%Q).
Proof.
  cbv zeta. unfold actually_send_batch.
  destruct (@retrying_shape G C B R table suffix batch api_timeout
              15 14 1 eq_refl)
    as [I1 [I2 [I3 [I4 [I5 _]]]]].
  set (run := retrying 15 table suffix batch api_timeout 1) in *.
  set (s := List.length (sleeps_of (snd run))) in *.
  assert (Hs : s <= 14) by lia.
  split; [intros k; apply send_attempt_calls|].
  split; [intros k; apply send_attempt_deadline|].
  split; [intros k; apply send_attempt_in_time|].
  split; [intros i Hi; apply I3; lia|].
  split.
  { intros m Hm Hbefore Hm_ok.
    assert (1 + s = m).
    { destruct (Nat.lt_trichotomy (1 + s) m) as [Hlt|[Heq|Hgt]];
        [|exact Heq|].
      - specialize (I5 (Hbefore (1 + s) ltac:(lia))). lia.
      - elim Hm_ok. apply I3. lia. }
    subst m. split; [exact I4 | lia]. }
  split.
  { intros Hall. specialize (I5 (Hall (1 + s) ltac:(lia))).
    assert (s = 14) by lia. split; [|assumption].
    rewrite I4. apply Hall. lia. }
  split; [exact Hs|].
  split.
  { intros Hdl.
    destruct (@retrying_log _ _ _ _ table suffix batch api_timeout
                15 _ Hdl 1 eq_refl) as [s' [_ Hl]].
    fold run in Hl. unfold s. rewrite Hl at 2.
    rewrite sleeps_of_attempts_log, length_map, length_seq. exact Hl. }
  intros i w Hnth. rewrite I1 in Hnth.
  apply nth_error_map_seq in Hnth. subst w. change (1 + i) with (S i).
  split; [reflexivity|].
  split; [apply wait_random_exponential_value|].
  apply wait_random_exponential_bounds.
Qed.

(** C4.  When every fault the sink reports is an [Exception],
    [send_batch] returns normally whatever happened inside the
    dispatch, and does nothing beyond what the dispatch did: the
    sub-batch is dropped. *)
Theorem send_batch_never_raises :
  (forall k e, snd (bq_insert_all k table batch suffix) = Failed e ->
               is_Exception e = true) ->
  fst (send_batch table suffix batch api_timeout) = Ok tt
  /\ snd (send_batch table suffix batch api_timeout)
     = snd (actually_send_batch table suffix batch api_timeout).
Proof.
  intros Hsink. unfold send_batch, actually_send_batch.
  destruct (@retrying_shape G C B R table suffix batch api_timeout
              15 14 1 eq_refl)
    as [_ [_ [_ [I4 _]]]].
  destruct (retrying 15 table suffix batch api_timeout 1)
    as [[[]|e] log]; cbn [fst snd] in *; [auto|].
  symmetry in I4. apply send_attempt_raises in I4.
  assert (He : is_Exception e = true).
  { destruct I4 as [->|[->|Hf]]; [reflexivity | reflexivity |].
    eapply Hsink; exact Hf. }
  rewrite He. auto.
Qed.

(** C3, as the code has it.  Every call a dispatch makes to the sink,
    first attempt or retry, carries the rows it was given, and so the
    identifiers drawn once when the sub-batch was formed. *)
Theorem actually_send_batch_resends_batch
    (k : nat) (t : Table) (rows : list row) (s : str) (deadline : Q) :
  In (SinkCall k t rows s deadline)
     (snd (actually_send_batch table suffix batch api_timeout)) ->
  rows = batch /\ map insertId rows = map insertId batch
  /\ t = table /\ s = suffix.
Proof.
  intros Hin. unfold actually_send_batch in Hin.
  destruct (@retrying_shape G C B R table suffix batch api_timeout
              15 14 1 eq_refl)
    as [_ [_ [_ [_ [_ I6]]]]].
  destruct (I6 _ _ _ _ _ Hin) as [_ [-> [-> [-> _]]]]. auto.
Qed.

End DispatchClaims.

(** A sink that never answers: the dispatch gives up after fifteen
    attempts and the wrapper swallows the timeout. *)
Lemma send_batch_never_raises_witness :
  fst (send_batch (B := Example.dead_sink) (R := Example.coin)
         tt [] [] None) = Ok tt
  /\ fst (actually_send_batch (B := Example.dead_sink) (R := Example.coin)
            tt [] [] None) = Raise TooSlowError.
Proof.
  split; [|reflexivity].
  apply (send_batch_never_raises (B := Example.dead_sink)
           (R := Example.coin) tt [] [] None).
  intros k e H. discriminate H.
Defined.

(** C4, as the claim states it, fails: [except Exception] does not
    catch a [BaseException].  When the sink call ends with trio's
    cancellation, [send_batch] does not return: the cancellation leaves
    it. *)
Lemma send_batch_lets_cancellation_through :
  snd (bq_insert_all (Sink := Example.cancelled_sink) 1 tt [] [])
  = Failed Cancelled
  /\ fst (send_batch (B := Example.cancelled_sink) (R := Example.coin)
            tt [] [] None)
     = Raise Cancelled
  /\ fst (send_batch (B := Example.cancelled_sink) (R := Example.coin)
            tt [] [] None)
     <> Ok tt.
Proof.
  split; [reflexivity|].
  assert (E : fst (send_batch (B := Example.cancelled_sink)
                     (R := Example.coin) tt [] [] None)
              = Raise Cancelled) by (vm_compute; reflexivity).
  split; [exact E|]. rewrite E. discriminate.
Qed.

(** The retry of the example dispatch carries the identifier drawn when
    the sub-batch was formed. *)
Lemma actually_send_batch_resends_batch_witness :
  let batch := [mk_row (C := Example.converter) (str_of_string "0") (1, 0%N)] in
  exists rows,
    In (SinkCall (B := Example.slow_sink) 2 tt rows (str_of_string "201811") 15)
       (snd (actually_send_batch (B := Example.slow_sink) (R := Example.coin)
               tt (str_of_string "201811") batch None))
    /\ map insertId rows = [str_of_string "0"].
Proof.
  cbv zeta.
  exists [mk_row (C := Example.converter) (str_of_string "0") (1, 0%N)].
  assert (Hin :
    In (SinkCall (B := Example.slow_sink) 2 tt
          [mk_row (C := Example.converter) (str_of_string "0") (1, 0%N)]
          (str_of_string "201811") 15)
       (snd (actually_send_batch (B := Example.slow_sink) (R := Example.coin)
               tt (str_of_string "201811")
               [mk_row (C := Example.converter) (str_of_string "0") (1, 0%N)]
               None))).
  { vm_compute. right. right. left. reflexivity. }
  split; [exact Hin|].
  destruct (@actually_send_batch_resends_batch
              _ _ _ Example.coin _ _ _ _ _ _ _ _ _ Hin) as [_ [H _]].
  exact (eq_trans H eq_refl).
Defined.

(** C3, as the claim states it, fails: the sink below times out on the
    first attempt, and the retry carries the identifier of the first
    attempt. *)
Lemma retry_resends_the_same_tokens :
  ~ rederives_tokens
      (snd (actually_send_batch (B := Example.slow_sink) (R := Example.coin)
              tt (str_of_string "201811")
              [mk_row (C := Example.converter) (str_of_string "0") (1, 0%N)]
              None)).
Proof.
  intros H. unfold rederives_tokens in H.
  set (batch := [mk_row (C := Example.converter) (str_of_string "0") (1, 0%N)])
    in H.
  refine (H 1 tt tt batch batch (str_of_string "201811")
            (str_of_string "201811") 15%Q 15%Q _ _ (str_of_string "0") _ _).
  - vm_compute. left. reflexivity.
  - vm_compute. right. right. left. reflexivity.
  - left. reflexivity.
  - left. reflexivity.
Qed.

(** Four timeouts, then success on the fifth attempt: five sink calls,
    four waits of half of 2, 4, 8 and 16 seconds, one normal return. *)
Example actually_send_batch_fifth_attempt :
  actually_send_batch (B := Example.slow_sink) (R := Example.coin)
    tt [] [] None
  = let call k := SinkCall (B := Example.slow_sink) k tt [] [] 15 in
    (Ok tt,
     [call 1; Sleep (2 # 2); call 2; Sleep (4 # 2); call 3; Sleep (8 # 2);
      call 4; Sleep (16 # 2); call 5]).
Proof. vm_compute. reflexivity. Qed.

(** A rejection is not retried. *)
Example actually_send_batch_rejected :
  actually_send_batch (B := Example.rejecting_sink) (R := Example.coin)
    tt [] [] None
  = (Raise (OtherError 7),
     [SinkCall (B := Example.rejecting_sink) 1 tt [] [] 15]).
Proof. vm_compute. reflexivity. Qed.

(** ** The batching loop *)

Section SenderFacts.

Context {G : Grammars} {C : Converter} {U : UuidSource} {B : Sink}.

Lemma Qle_bool_false (x y : Q) : Qle_bool x y = false <-> (y < x)%Q.
Proof.
  split.
  - intros E. apply Qnot_le_lt. intros H. apply Qle_bool_iff in H.
    congruence.
  - intros H. destruct (Qle_bool x y) eqn:E; [|reflexivity].
    apply Qle_bool_iff in E. exfalso. eapply Qlt_not_le; eassumption.
Qed.

(** Once the cancellation is delivered nothing more is taken. *)
Lemma collect_loop_cancelled (batch_size : Z) (batch_timeout : Q)
    (feed : arrivals) (batch : list Download) (now : Q) :
  collect_loop batch_size batch_timeout feed batch now true = batch.
Proof.
  destruct feed as [|[t item] feed]; cbn [collect_loop];
    now destruct (Z.ltb _ _).
Qed.

(** The batch never grows beyond the batch size. *)
Lemma collect_loop_length (batch_size : Z) (batch_timeout : Q)
    (feed : arrivals) (batch : list Download) (now : Q)
    (cancelled : bool) :
  List.length
    (collect_loop batch_size batch_timeout feed batch now cancelled)
  <= Nat.max (List.length batch) (Z.to_nat batch_size).
Proof.
  revert batch now cancelled.
  induction feed as [|[t item] feed IH]; intros batch now cancelled;
    cbn [collect_loop].
  - destruct (Z.ltb _ _); lia.
  - destruct (Z.ltb_spec (Z.of_nat (List.length batch)) batch_size)
      as [Hlt|Hge]; [|lia].
    assert (Hnext : forall now' c,
      List.length
        (collect_loop batch_size batch_timeout feed (batch ++ [item])
           now' c)
      <= Nat.max (List.length batch) (Z.to_nat batch_size)).
    { intros now' c. etransitivity; [apply IH|].
      rewrite length_app. cbn [List.length]. lia. }
    destruct cancelled; [lia|].
    destruct (Qle_bool t now); [apply Hnext|].
    destruct (Qle_bool batch_timeout t); [lia | apply Hnext].
Qed.

(** Before the deadline the loop takes the records as they come. *)
Lemma collect_loop_running (batch_size : Z) (batch_timeout : Q)
    (feed : arrivals) (batch : list Download) (now : Q) :
  (now < batch_timeout)%Q ->
  collect_loop batch_size batch_timeout feed batch now false
  = batch
    ++ firstn (Z.to_nat (batch_size - Z.of_nat (List.length batch)))
         (arrived_before batch_timeout feed).
Proof.
  revert batch now. induction feed as [|[t item] feed IH];
    intros batch now Hnow.
  - simpl. destruct (Z.ltb _ _); now rewrite firstn_nil, app_nil_r.
  - cbn [collect_loop arrived_before].
    destruct (Z.ltb_spec (Z.of_nat (List.length batch)) batch_size)
      as [Hlt|Hge].
    + assert (Hstep : forall now', (now' < batch_timeout)%Q ->
        collect_loop batch_size batch_timeout feed (batch ++ [item])
          now' false
        = batch
          ++ firstn (Z.to_nat (batch_size - Z.of_nat (List.length batch)))
               (item :: arrived_before batch_timeout feed)).
      { intros now' Hnow'. rewrite (IH _ _ Hnow'), length_app, <- app_assoc.
        cbn [List.length app].
        replace (Z.to_nat (batch_size - Z.of_nat (List.length batch)))
          with (S (Z.to_nat
                     (batch_size - Z.of_nat (List.length batch + 1))))
          by lia.
        reflexivity. }
      destruct (Qle_bool t now) eqn:Etn.
      * apply Qle_bool_iff in Etn.
        rewrite (proj2 (Qle_bool_false batch_timeout now) Hnow).
        rewrite (proj2 (Qle_bool_false batch_timeout t)
                   (Qle_lt_trans _ _ _ Etn Hnow)).
        now apply Hstep.
      * destruct (Qle_bool batch_timeout t) eqn:Ett.
        -- now rewrite firstn_nil, app_nil_r.
        -- apply Hstep. now apply Qle_bool_false.
    + replace (Z.to_nat (batch_size - Z.of_nat (List.length batch)))
        with 0 by lia.
      now rewrite app_nil_r.
Qed.

(** A cycle's batch under a positive timeout: the records that arrive
    before the timeout, cut at the batch size. *)
Lemma collect_spec (batch_size : Z) (batch_timeout : Q) (feed : arrivals) :
  (0 < batch_timeout)%Q ->
  collect batch_size batch_timeout feed []
  = firstn (Z.to_nat batch_size) (arrived_before batch_timeout feed).
Proof.
  intros H. unfold collect. rewrite (collect_loop_running _ _ _ H).
  cbn [List.length app]. now rewrite Z.sub_0_r.
Qed.

(** A cycle's batch under a timeout of zero: the first [q.get()] still
    returns a record that is on the queue, and the deadline is delivered
    right after it. *)
Lemma collect_zero_timeout (batch_size : Z) (batch_timeout : Q)
    (feed : arrivals) :
  (batch_timeout == 0)%Q ->
  collect batch_size batch_timeout feed []
  = firstn (Z.to_nat batch_size) (queued_first feed).
Proof.
  intros H. unfold collect.
  destruct feed as [|[t item] feed]; cbn [collect_loop queued_first].
  - destruct (Z.ltb _ _); now rewrite firstn_nil.
  - cbn [List.length].
    destruct (Z.ltb_spec (Z.of_nat 0) batch_size) as [Hlt|Hge].
    + assert (H0 : Qle_bool batch_timeout 0 = true).
      { apply Qle_bool_iff. rewrite H. apply Qle_refl. }
      destruct (Qle_bool t 0) eqn:Et.
      * rewrite H0, collect_loop_cancelled. cbn [app].
        replace (Z.to_nat batch_size) with (S (Z.to_nat (batch_size - 1)))
          by lia.
        cbn [firstn]. now rewrite firstn_nil.
      * apply Qle_bool_false in Et.
        assert (Ht : Qle_bool batch_timeout t = true).
        { apply Qle_bool_iff. rewrite H. now apply Qlt_le_weak. }
        rewrite Ht. now rewrite firstn_nil.
    + replace (Z.to_nat batch_size) with 0 by lia. reflexivity.
Qed.

(** C7.  With the size and the timeout that are configured, or 3 and
    30 s when unset.  Under a positive timeout a cycle's batch is made of
    the records that arrive before the timeout, cut at the batch size,
    so it is complete as soon as that many have arrived and holds what
    arrived when the timeout comes first.  Under a timeout of zero the
    deadline is delivered after the first [q.get()], which still returns
    a record that is already queued: the batch is that record or
    nothing.  The cycle starts one task per sub-batch of its batch; a
    cycle that collects nothing starts no task and the loop goes on with
    the next cycle. *)
Theorem sender_cycle_batches (table : Table) (batch_size : option Z)
    (batch_timeout api_timeout : option Q) :
  (0 <= default 30 batch_timeout)%Q ->
  let size := default 3%Z batch_size in
  let timeout := default 30%Q batch_timeout in
  (forall feeds n,
      sender table batch_size batch_timeout api_timeout feeds n
      = sender_loop table size timeout api_timeout feeds n)
  /\ (forall feed,
        (0 < timeout)%Q ->
        collect size timeout feed []
        = firstn (Z.to_nat size) (arrived_before timeout feed))
  /\ (forall feed,
        (timeout == 0)%Q ->
        collect size timeout feed []
        = firstn (Z.to_nat size) (queued_first feed))
  /\ (forall feed n,
        let batch := collect size timeout feed [] in
        sender_cycle table size timeout api_timeout feed n
        = (map (fun sub => start_soon table (fst sub) (snd sub) api_timeout)
             (fst (fst (compute_batches batch n))),
           None, n + List.length batch)
        /\ sender table batch_size batch_timeout api_timeout [feed] n
           = sender_cycle table size timeout api_timeout feed n)
  /\ (forall feed feeds n,
        collect size timeout feed [] = [] ->
        sender_cycle table size timeout api_timeout feed n = ([], None, n)
        /\ sender table batch_size batch_timeout api_timeout
             (feed :: feeds) n
           = sender table batch_size batch_timeout api_timeout feeds n).
Proof.
  intros Htimeout size timeout. change (0 <= timeout)%Q in Htimeout.
  assert (Hcycle : forall feed n,
    sender_cycle table size timeout api_timeout feed n
    = (map (fun sub => start_soon table (fst sub) (snd sub) api_timeout)
         (fst (fst (compute_batches (collect size timeout feed []) n))),
       None, n + List.length (collect size timeout feed []))).
  { intros feed n. unfold sender_cycle.
    rewrite (proj2 (Qle_bool_iff _ _) Htimeout).
    destruct (compute_batches_spec (collect size timeout feed []) n)
      as [out [E _]].
    now rewrite E. }
  split; [reflexivity|]. split; [intros feed; apply collect_spec|].
  split; [intros feed; apply collect_zero_timeout|].
  split.
  { intros feed n. cbv zeta. split; [apply Hcycle|].
    unfold sender. fold size timeout. cbn [sender_loop].
    rewrite Hcycle. now rewrite app_nil_r. }
  intros feed feeds n Hempty.
  assert (Hc : sender_cycle table size timeout api_timeout feed n
               = ([], None, n)).
  { rewrite Hcycle, Hempty. cbn. now rewrite Nat.add_0_r. }
  split; [exact Hc|].
  unfold sender. fold size timeout. cbn [sender_loop]. rewrite Hc.
  now destruct (sender_loop table size timeout api_timeout feeds n)
    as [[tasks e] n'].
Qed.

End SenderFacts.

(** With nothing configured: three records are on time and a fourth is
    left on the queue; a cycle in which nothing arrives within 30 s
    starts no task and the loop goes on, the record that came a second
    late being the first of the next cycle. *)
Lemma sender_cycle_batches_witness :
  (0 <= default 30 None)%Q
  /\ collect (G := Example.grammars) 3 30
       [(1%Q, Example.d1); (2%Q, Example.d2); (3%Q, Example.d1');
        (4%Q, Example.d1)] []
     = [Example.d1; Example.d2; Example.d1']
  /\ sender (G := Example.grammars) (C := Example.converter)
       (U := Example.uuids) (B := Example.slow_sink) tt None None None
       [[(31%Q, Example.d1)]; [(1%Q, Example.d1); (2%Q, Example.d2)]] 0
     = sender (G := Example.grammars) (C := Example.converter)
         (U := Example.uuids) (B := Example.slow_sink) tt None None None
         [[(1%Q, Example.d1); (2%Q, Example.d2)]] 0.
Proof.
  assert (H0 : (0 <= default 30 None)%Q) by discriminate.
  destruct (sender_cycle_batches (G := Example.grammars)
              (C := Example.converter) (U := Example.uuids)
              (B := Example.slow_sink) tt None None None H0)
    as [_ [Hcollect [_ [_ Hempty]]]].
  split; [exact H0|]. split.
  - rewrite Hcollect; reflexivity.
  - apply Hempty. reflexivity.
Defined.

(** The tasks of the cycles of a small run: the fourth record, left on
    the queue by the first cycle, is taken by the second. *)
Example sender_two_cycles :
  fst (fst (sender (G := Example.grammars) (C := Example.converter)
              (U := Example.uuids) (B := Example.slow_sink) tt None None None
              [[(1%Q, Example.d1); (2%Q, Example.d2); (3%Q, Example.d1');
                (4%Q, Example.d1)];
               [(1%Q, Example.d1)];
               [(3%Q, Example.d2)]] 0))
  = [start_soon (B := Example.slow_sink) tt (str_of_string "201811")
       [mk_row (C := Example.converter) (str_of_string "0") (1, 0%N);
        mk_row (C := Example.converter) (str_of_string "1") (3, 3600%N)]
       None;
     start_soon (B := Example.slow_sink) tt (str_of_string "201812365")
       [mk_row (C := Example.converter) (str_of_string "2") (2, 0%N)] None;
     start_soon (B := Example.slow_sink) tt (str_of_string "201811")
       [mk_row (C := Example.converter) (str_of_string "3") (1, 0%N)] None;
     start_soon (B := Example.slow_sink) tt (str_of_string "201812365")
       [mk_row (C := Example.converter) (str_of_string "4") (2, 0%N)] None].
Proof. vm_compute. reflexivity. Qed.

(** A timeout of zero: of three records on the queue, a cycle takes
    one. *)
Example sender_zero_timeout :
  collect (G := Example.grammars) 3 0
    [(0%Q, Example.d1); (0%Q, Example.d2); (0%Q, Example.d1')] []
  = [Example.d1].
Proof. reflexivity. Qed.

(** * Further properties *)

(** ** The decoder, continued *)

Section DecoderMore.

Context {G : Grammars}.

(** Whatever leaves [parse_line] is either the decoding error of a line
    that is not UTF-8, raised before any grammar is called, or a fault of
    one of the grammars that is not a [ValueError]: a [ValueError] of a
    grammar never gets out. *)
Lemma parse_line_raises_only (line : list byte) (token : option str)
    (e : exn) :
  snd (parse_line line token) = Raise e ->
  (Utf8.decode line = None /\ e = UnicodeDecodeError
   /\ fst (parse_line line token) = [])
  \/ (is_ValueError e = false
      /\ ((exists l, syslog_parse l = Raise e)
          \/ (exists p, event_parse p = Raise e))).
Proof.
  destruct (Utf8.decode line) as [s|] eqn:Hdec.
  - rewrite (parse_line_decoded _ token Hdec).
    destruct (check_token s token) as [s'|]; [|discriminate].
    destruct (syslog_parse s') as [msg|e1] eqn:E1.
    + destruct (event_parse (message msg)) as [ev|e2] eqn:E2;
        [discriminate|]. cbn [snd].
      destruct (is_ValueError e2) eqn:V; [discriminate|].
      intros [= <-]. right. split; [exact V|]. right. eauto.
    + cbn [snd]. destruct (is_ValueError e1) eqn:V; [discriminate|].
      intros [= <-]. right. split; [exact V|]. left. eauto.
  - unfold parse_line, decode_utf8. rewrite Hdec. cbn.
    intros [= <-]. left. auto.
Qed.

(** [parse_line] returns a record exactly when the line is UTF-8, passes
    the token gate, and both grammars accept: the record is the event
    grammar's reading of the envelope's message. *)
Lemma parse_line_returns_record (line : list byte) (token : option str)
    (event : Download) :
  snd (parse_line line token) = Ok (Some event)
  <-> exists s s' msg,
        Utf8.decode line = Some s
        /\ check_token s token = Some s'
        /\ syslog_parse s' = Ok msg
        /\ event_parse (message msg) = Ok event.
Proof.
  split.
  - destruct (Utf8.decode line) as [s|] eqn:Hdec.
    + rewrite (parse_line_decoded _ token Hdec).
      destruct (check_token s token) as [s'|] eqn:Hgate; [|discriminate].
      destruct (syslog_parse s') as [msg|e1] eqn:E1.
      * destruct (event_parse (message msg)) as [ev|e2] eqn:E2.
        -- intros [= <-]. exists s, s', msg. auto.
        -- cbn [snd]. destruct (is_ValueError e2); discriminate.
      * cbn [snd]. destruct (is_ValueError e1); discriminate.
    + unfold parse_line, decode_utf8. rewrite Hdec. discriminate.
  - intros [s [s' [msg [Hdec [Hgate [E1 E2]]]]]].
    rewrite (parse_line_decoded _ token Hdec), Hgate, E1, E2. reflexivity.
Qed.

(** An empty token is no gate at all: every line is read as if no token
    were configured. *)
Lemma parse_line_empty_token (line : list byte) :
  parse_line line (Some []) = parse_line line None.
Proof.
  unfold parse_line. destruct (decode_utf8 line) as [calls [s|e]];
    [|reflexivity].
  cbn [bind check_token]. destruct s; reflexivity.
Qed.

End DecoderMore.

(** The event grammar of the example fails with a fault that is not a
    [ValueError] on the payload ["K"]. *)
Lemma parse_line_raises_only_witness :
  snd (parse_line (G := Example.grammars) (Utf8.bytes_of_string "K") None)
  = Raise (OtherError 0)
  /\ exists p, event_parse (Grammars := Example.grammars) p
               = Raise (OtherError 0).
Proof.
  split; [reflexivity|].
  destruct (parse_line_raises_only (G := Example.grammars)
              (Utf8.bytes_of_string "K") None eq_refl)
    as [[Hdec _]|[_ [[l Hl]|Hp]]].
  - discriminate Hdec.
  - exfalso. simpl in Hl. destruct l; discriminate.
  - exact Hp.
Defined.

(** ** The grouping key, continued *)

(** Two records of one day, an hour apart, have the same key. *)
Lemma extract_item_date_same_date_witness :
  Arrow.valid (timestamp (Grammars := Example.grammars) Example.d1) = true
  /\ Arrow.valid (timestamp (Grammars := Example.grammars) Example.d1') = true
  /\ extract_item_date (G := Example.grammars) Example.d1
     = extract_item_date (G := Example.grammars) Example.d1'.
Proof.
  split; [reflexivity|]. split; [reflexivity|].
  apply (extract_item_date_same_date (G := Example.grammars)
           Example.d1 Example.d1' eq_refl eq_refl).
  repeat split.
Defined.

Lemma all_month_days_width (leap : bool) : month_day_text_width leap = true.
Proof. destruct leap; vm_compute; reflexivity. Qed.

(** The key of a timestamp a [datetime] can hold is six to nine
    characters wide: four for the year, then one or two for the month
    and one to three for the day of the year. *)
Lemma extract_item_date_width {G : Grammars} (item : Download) :
  Arrow.valid (timestamp item) = true ->
  6 <= List.length (extract_item_date item) <= 9.
Proof.
  intros V. unfold extract_item_date. rewrite format_YYYYMDDD, length_app.
  destruct (valid_fields _ V) as [Hy Hmd].
  pose proof (forall_below_spec _ all_years_ok Hy) as Ky.
  unfold year_text_ok in Ky. apply andb_prop in Ky. destruct Ky as [Ly _].
  apply Nat.eqb_eq in Ly. rewrite Ly.
  pose proof (all_month_days_width
                (Arrow.is_leap (Arrow.year (timestamp item)))) as W.
  unfold month_day_text_width in W.
  pose proof Hmd as Hmd'. unfold valid_month_day in Hmd'.
  rewrite !andb_true_iff, !N.leb_le in Hmd'.
  pose proof (days_in_month_le
                (Arrow.is_leap (Arrow.year (timestamp item)))
                (Arrow.month (timestamp item))).
  apply forall_below_spec with (x := Arrow.month (timestamp item)) in W;
    [|lia].
  apply forall_below_spec with (x := Arrow.day (timestamp item)) in W;
    [|lia].
  rewrite Hmd in W. cbn [implb] in W. apply andb_prop in W.
  destruct W as [W1 W2]. apply Nat.leb_le in W1, W2. lia.
Qed.

Lemma extract_item_date_width_witness :
  Arrow.valid (timestamp (Grammars := Example.grammars) Example.d2) = true
  /\ 6 <= List.length (extract_item_date (G := Example.grammars) Example.d2)
     <= 9.
Proof.
  split; [reflexivity|].
  apply (extract_item_date_width (G := Example.grammars) Example.d2 eq_refl).
Defined.

(** ** Partitioning, continued *)

Section PartitionMore.

Variables (A K : Type) (key : A -> K).
Variables (ltb eqb : K -> K -> bool).

Hypothesis ltb_irrefl : forall a, ltb a a = false.
Hypothesis ltb_trans :
  forall a b c, ltb a b = true -> ltb b c = true -> ltb a c = true.
Hypothesis ltb_connex :
  forall a b, ltb a b = false -> ltb b a = false -> a = b.
Hypothesis eqb_eq : forall a b, eqb a b = true <-> a = b.

(** On a sorted list the groups come in strictly increasing order of
    key. *)
Lemma groupby_sorted_increasing (l : list A) :
  StronglySorted (key_le key ltb) l ->
  StronglySorted (fun k k' => ltb k k' = true) (map fst (groupby key eqb l)).
Proof.
  induction 1 as [|x l Hl IH Hx]; [constructor|].
  rewrite (groupby_step key eqb x l).
  destruct (groupby key eqb l) as [|[k g] gs] eqn:E;
    [repeat constructor|].
  destruct l as [|y l']; [discriminate|].
  destruct (groupby_cons key eqb y l') as [g' [gs' E']].
  rewrite E in E'. injection E' as -> -> ->.
  destruct (eqb (key x) (key y)) eqn:Ek.
  - apply eqb_eq in Ek. cbn [map fst] in *. now rewrite Ek.
  - cbn [map fst] in *. constructor; [exact IH|].
    change (key y :: map fst gs') with (map fst ((key y, y :: g') :: gs')).
    rewrite <- E. apply Forall_forall. intros k Hk.
    apply (groupby_keys key eqb eqb_eq) in Hk. apply in_map_iff in Hk.
    destruct Hk as [z [<- Hz]].
    rewrite Forall_forall in Hx. pose proof (Hx z Hz) as Hxz.
    pose proof (Hx y (or_introl eq_refl)) as Hxy.
    unfold key_le in Hxz, Hxy.
    assert (Lxy : ltb (key x) (key y) = true).
    { destruct (ltb (key x) (key y)) eqn:L; [reflexivity|].
      rewrite (ltb_connex L Hxy), (proj2 (eqb_eq _ _) eq_refl) in Ek.
      discriminate. }
    destruct (ltb (key x) (key z)) eqn:L; [reflexivity|].
    pose proof (ltb_connex L Hxz) as Exz.
    assert (Hyz : ltb (key z) (key y) = false).
    { destruct Hz as [->|Hz]; [apply ltb_irrefl|].
      inversion Hl as [|? ? _ Hy]; subst.
      rewrite Forall_forall in Hy. now apply Hy. }
    rewrite <- Exz, Lxy in Hyz. discriminate.
Qed.

End PartitionMore.

Section BatchMore.

Context {G : Grammars} {C : Converter} {U : UuidSource}.

(** The sub-batches are yielded in strictly increasing order of key, as
    [str] compares. *)
Lemma compute_batches_keys_increasing (items : list Download) (n : nat) :
  StronglySorted (fun k k' => str_ltb k k' = true)
    (map fst (fst (fst (compute_batches items n)))).
Proof.
  destruct (yield_groups_spec n (groupby_sorted_well_grouped items))
    as [out [E [K _]]].
  unfold compute_batches. rewrite E. cbn [fst]. rewrite K.
  apply (@groupby_sorted_increasing _ _ extract_item_date str_ltb str_eqb);
    try apply sorted_StronglySorted;
    first [ exact str_ltb_irrefl | exact str_ltb_trans
          | exact str_ltb_connex | exact str_eqb_eq ].
Qed.

(** A batch whose records all carry one key is yielded as one sub-batch:
    all the records, in the order they arrived, under that key. *)
Lemma compute_batches_single_key (items : list Download) (n : nat)
    (k : str) :
  items <> [] ->
  (forall x, In x items -> extract_item_date x = k) ->
  exists rows,
    compute_batches items n = ([(k, rows)], None, n + List.length items)
    /\ map json rows = map unstructure items
    /\ map insertId rows = map uuid4_str (seq n (List.length items)).
Proof.
  intros Hne Hk.
  destruct (compute_batches_spec items n)
    as [out [E [Hnd [Hkeys [Hrows [_ Hids]]]]]].
  assert (Hall : forall k', In k' (map fst out) -> k' = k).
  { intros k' Hin. apply Hkeys in Hin. apply in_map_iff in Hin.
    destruct Hin as [x [<- Hx]]. now apply Hk. }
  assert (Hfilter :
    filter (has_key extract_item_date str_eqb k) items = items).
  { clear - Hk. induction items as [|x l IH]; [reflexivity|].
    cbn [filter]. unfold has_key at 1.
    rewrite (proj2 (str_eqb_eq _ _) (Hk x (or_introl eq_refl))).
    f_equal. apply IH. intros y Hy. apply Hk. now right. }
  destruct out as [|[k1 rows1] out].
  - destruct items as [|x l]; [congruence|].
    assert (Hin : In (extract_item_date x) (map fst (@nil (str * list row)))).
    { apply Hkeys. now left. }
    contradiction.
  - assert (k1 = k) by (apply Hall; now left). subst k1.
    destruct out as [|[k2 rows2] out].
    + exists rows1. split; [exact E|].
      inversion Hrows as [|? ? [_ Hr] _]; subst. cbn [fst snd] in Hr.
      rewrite Hfilter in Hr. split; [exact Hr|].
      cbn [map snd List.concat] in Hids. now rewrite app_nil_r in Hids.
    + exfalso. assert (k2 = k) by (apply Hall; right; now left). subst k2.
      cbn [map fst] in Hnd. inversion Hnd as [|? ? Hnotin _]; subst.
      apply Hnotin. now left.
Qed.

End BatchMore.

(** Two records of 2018-01-01 form one sub-batch. *)
Lemma compute_batches_single_key_witness :
  exists rows,
    compute_batches (G := Example.grammars) (C := Example.converter)
      (U := Example.uuids) [Example.d1; Example.d1'] 0
    = ([(str_of_string "201811", rows)], None, 2)
    /\ map json rows
       = map (unstructure (Converter := Example.converter))
           [Example.d1; Example.d1']
    /\ map insertId rows
       = map (uuid4_str (UuidSource := Example.uuids)) [0; 1].
Proof.
  apply (compute_batches_single_key (G := Example.grammars)
           (C := Example.converter) (U := Example.uuids)
           (items := [Example.d1; Example.d1']) 0
           (k := str_of_string "201811")).
  - discriminate.
  - intros x [<-|[<-|[]]]; reflexivity.
Defined.

(** ** Dispatch, continued *)

Section DispatchMore.

Context {G : Grammars} {C : Converter} {B : Sink} {R : RandomSource}.

Variables (table : Table) (suffix : str) (batch : list row).
Variable api_timeout : option Q.

(** The wait drawn after attempt [k] is at most the cap of that
    attempt. *)
Lemma wait_random_exponential_le_cap (k : nat) :
  (0 <= wait_random_exponential 1 60 k
   /\ wait_random_exponential 1 60 k <= wait_exponential 1 60 k)%Q.
Proof.
  unfold wait_random_exponential.
  set (h := wait_exponential 1 60 k).
  assert (H0 : (0 <= h)%Q) by apply Q.le_max_l.
  destruct (random_range k) as [R0 R1].
  assert (Hw0 : (0 <= h * random k)%Q) by now apply Qmult_le_0_compat.
  assert (Hwh : (h * random k <= h)%Q).
  { rewrite <- (Qmult_1_r h) at 2.
    apply Qmult_le_compat_nonneg; split;
      [exact H0 | apply Qle_refl | exact R0 | now apply Qlt_le_weak]. }
  split; ring_simplify; assumption.
Qed.

Lemma wait_exponential_nonneg (k : nat) : (0 <= wait_exponential 1 60 k)%Q.
Proof. apply Q.le_max_l. Qed.

Lemma wait_caps_nonneg (k s : nat) : (0 <= wait_caps k s)%Q.
Proof.
  revert k. induction s as [|s IH]; intros k; cbn [wait_caps].
  - apply Qle_refl.
  - pose proof (wait_exponential_nonneg k). pose proof (IH (S k)). lra.
Qed.

(** From attempt 1 on, fourteen waits add up to at most
    2 + 4 + 8 + 16 + 32 + 9 * 60 seconds. *)
Lemma wait_caps_le_602 (s : nat) : s <= 14 -> (wait_caps 1 s <= 602)%Q.
Proof.
  intros Hs.
  assert (H14 : (wait_caps 1 14 <= 602)%Q) by (vm_compute; discriminate).
  assert (Hmono : forall k a b, (wait_caps k a <= wait_caps k (a + b))%Q).
  { intros k a. revert k. induction a as [|a IH]; intros k b.
    - apply wait_caps_nonneg.
    - cbn [wait_caps Nat.add]. pose proof (IH (S k) b). lra. }
  replace 14 with (s + (14 - s)) in H14 by lia.
  pose proof (Hmono 1 s (14 - s)). lra.
Qed.

(** An attempt takes no longer than its deadline: a sink call that is
    not cut at the deadline ended before it. *)
Lemma timed_attempt_time (deadline : Q) (k : nat) :
  (0 <= deadline)%Q ->
  (snd (timed_attempt k table suffix batch (Some deadline)) <= deadline)%Q.
Proof.
  intros Hd. unfold timed_attempt. cbn [default].
  rewrite (proj2 (Qle_bool_iff _ _) Hd).
  destruct (bq_insert_all k table batch suffix) as [elapsed reply].
  destruct (Qle_bool deadline elapsed) eqn:E.
  - apply Qle_refl.
  - apply Qle_bool_false in E.
    destruct reply; cbn [snd]; now apply Qlt_le_weak.
Qed.

Lemma dispatch_time_attempts_log (deadline : Q) (k s : nat) :
  (0 <= deadline)%Q ->
  (dispatch_time (attempts_log table suffix batch deadline k s)
   <= inject_Z (Z.of_nat (S s)) * deadline + wait_caps k s)%Q.
Proof.
  intros Hd. revert k. induction s as [|s IH]; intros k.
  - cbn [attempts_log dispatch_time fold_right event_time wait_caps].
    pose proof (timed_attempt_time k Hd).
    change (inject_Z (Z.of_nat 1)) with 1%Q. lra.
  - cbn [attempts_log dispatch_time fold_right event_time wait_caps].
    fold (dispatch_time
            (attempts_log table suffix batch deadline (S k) s)).
    pose proof (IH (S k)) as IHk.
    pose proof (timed_attempt_time k Hd).
    destruct (wait_random_exponential_le_cap k) as [_ Hw].
    assert (E : (inject_Z (Z.of_nat (S (S s)))
                 == inject_Z (Z.of_nat (S s)) + 1)%Q).
    { rewrite (Nat2Z.inj_succ (S s)). unfold Z.succ.
      rewrite inject_Z_plus. reflexivity. }
    rewrite E. lra.
Qed.

(** With a negative deadline the sink is never called: the dispatch
    fails at once with [ValueError], and the wrapper drops the sub-batch
    without a trace. *)
Lemma send_batch_negative_deadline (t : Q) :
  (t < 0)%Q ->
  actually_send_batch table suffix batch (Some t) = (Raise ValueError, [])
  /\ send_batch table suffix batch (Some t) = (Ok tt, []).
Proof.
  intros Ht.
  assert (E : send_attempt 1 table suffix batch (Some t)
              = (Raise ValueError, [])).
  { rewrite send_attempt_body. cbn [default].
    destruct (Qle_bool 0%Q t) eqn:Q0; [|reflexivity].
    apply Qle_bool_iff in Q0. lra. }
  assert (A : actually_send_batch table suffix batch (Some t)
              = (Raise ValueError, [])).
  { unfold actually_send_batch. simp retrying. rewrite E. reflexivity. }
  split; [exact A|]. unfold send_batch. now rewrite A.
Qed.

(** With a deadline that is not negative, a dispatch is attempts
    1, 2, ... up to at most 15, each one sink call with the same table,
    rows and key, and a wait between attempts: it never waits before the
    first attempt or after the last. *)
Lemma actually_send_batch_log :
  (0 <= default 15 api_timeout)%Q ->
  exists s,
    s <= 14
    /\ snd (actually_send_batch table suffix batch api_timeout)
       = attempts_log table suffix batch (default 15%Q api_timeout) 1 s.
Proof.
  intros Hdl. destruct (@retrying_log _ _ _ _ table suffix batch api_timeout 15 _ Hdl 1 eq_refl) as [s [Hs Hl]].
  exists s. split; [lia | exact Hl].
Qed.

(** A dispatch is time boxed: sink calls and waits together take at most
    fifteen deadlines and 602 seconds. *)
Lemma send_batch_time_boxed :
  (dispatch_time (snd (send_batch table suffix batch api_timeout))
   <= 15 * Qmax 0 (default 15 api_timeout) + 602)%Q.
Proof.
  assert (Hlog : snd (send_batch table suffix batch api_timeout)
                 = snd (actually_send_batch table suffix batch api_timeout)).
  { unfold send_batch.
    destruct (actually_send_batch table suffix batch api_timeout)
      as [[[]|e] log]; [reflexivity|].
    destruct (is_Exception e); reflexivity. }
  rewrite Hlog. clear Hlog.
  pose proof (Q.le_max_l 0%Q (default 15%Q api_timeout)) as Hm0.
  destruct (Qlt_le_dec (default 15%Q api_timeout) 0%Q) as [Hneg|Hpos].
  - assert (E : snd (actually_send_batch table suffix batch api_timeout)
                = []).
    { unfold actually_send_batch. simp retrying.
      assert (A : send_attempt 1 table suffix batch api_timeout
                  = (Raise ValueError, [])).
      { rewrite send_attempt_body. cbv zeta.
        destruct (Qle_bool 0%Q (default 15%Q api_timeout)) eqn:Q0;
          [|reflexivity].
        apply Qle_bool_iff in Q0. lra. }
      rewrite A. reflexivity. }
    rewrite E. cbn [dispatch_time fold_right]. lra.
  - destruct (@retrying_log _ _ _ _ table suffix batch api_timeout 15 _ Hpos 1 eq_refl) as [s [Hs Hl]].
    unfold actually_send_batch. rewrite Hl.
    pose proof (dispatch_time_attempts_log 1 s Hpos) as Ht.
    pose proof (wait_caps_le_602 (s := s) ltac:(lia)) as Hc.
    pose proof (Q.le_max_r 0%Q (default 15%Q api_timeout)) as Hm.
    assert (Hn : (inject_Z (Z.of_nat (S s)) <= 15)%Q).
    { change 15%Q with (inject_Z 15). rewrite <- Zle_Qle. lia. }
    assert (Hp : (inject_Z (Z.of_nat (S s)) * default 15 api_timeout
                  <= 15 * Qmax 0 (default 15 api_timeout))%Q).
    { apply Qmult_le_compat_nonneg; split; try assumption.
      change 0%Q with (inject_Z 0). rewrite <- Zle_Qle. lia. }
    lra.
Qed.

End DispatchMore.

(** A deadline of minus one second: the rows are dropped without a call
    to the sink. *)
Lemma send_batch_negative_deadline_witness :
  (-1 < 0)%Q
  /\ send_batch (B := Example.slow_sink) (R := Example.coin) tt
       (str_of_string "201811") [] (Some (-1)%Q)
     = (Ok tt, []).
Proof.
  split; [reflexivity|].
  apply (send_batch_negative_deadline (B := Example.slow_sink)
           (R := Example.coin) tt (str_of_string "201811") []
           (t := (-1)%Q) eq_refl).
Defined.

(** The example sink answers on the fifth attempt: four waits. *)
Lemma actually_send_batch_log_witness :
  (0 <= default 15 None)%Q
  /\ exists s,
       s <= 14
       /\ snd (actually_send_batch (B := Example.slow_sink)
                 (R := Example.coin) tt [] [] None)
          = attempts_log (B := Example.slow_sink) (R := Example.coin)
              tt [] [] 15 1 s.
Proof.
  assert (H : (0 <= default 15 None)%Q) by discriminate.
  split; [exact H|].
  exact (actually_send_batch_log (B := Example.slow_sink)
           (R := Example.coin) tt [] [] None H).
Defined.

(** ** The batching loop, continued *)

Section SenderMore.

Context {G : Grammars} {C : Converter} {U : UuidSource} {B : Sink}.

Variables (table : Table) (api_timeout : option Q).

Lemma collect_length (batch_size : Z) (batch_timeout : Q)
    (feed : arrivals) :
  List.length (collect batch_size batch_timeout feed [])
  <= Z.to_nat batch_size.
Proof.
  unfold collect.
  etransitivity; [apply collect_loop_length|]. cbn [List.length]. lia.
Qed.

(** What one cycle with a timeout that is not negative starts. *)
Lemma sender_cycle_tasks (batch_size : Z) (batch_timeout : Q)
    (feed : arrivals) (n : nat) :
  (0 <= batch_timeout)%Q ->
  let batch := collect batch_size batch_timeout feed [] in
  exists tasks,
    sender_cycle table batch_size batch_timeout api_timeout feed n
    = (tasks, None, n + List.length batch)
    /\ Forall (fun t =>
                 task_table t = table
                 /\ task_api_timeout t = api_timeout
                 /\ 1 <= List.length (task_batch t) <= Z.to_nat batch_size)
         tasks
    /\ Permutation (map json (List.concat (map task_batch tasks)))
         (map unstructure batch)
    /\ map insertId (List.concat (map task_batch tasks))
       = map uuid4_str (seq n (List.length batch)).
Proof.
  intros Ht batch. unfold sender_cycle.
  rewrite (proj2 (Qle_bool_iff _ _) Ht). fold batch.
  destruct (compute_batches_spec batch n)
    as [out [E [_ [_ [Hrows [Hperm Hids]]]]]].
  rewrite E.
  exists (map (fun sub => start_soon table (fst sub) (snd sub) api_timeout)
            out).
  split; [reflexivity|].
  rewrite map_map. cbn [task_batch]. split; [|split; assumption].
  rewrite Forall_map. eapply Forall_impl; [|exact Hrows].
  intros [k rows] [Hne Hjson]. cbn [fst snd task_table task_api_timeout
                                     task_batch] in *.
  split; [reflexivity|]. split; [reflexivity|]. split.
  - destruct rows; [congruence | cbn; lia].
  - rewrite <- (length_map json rows), Hjson, length_map.
    etransitivity; [apply filter_length_le|].
    apply collect_length.
Qed.

(** A negative batch timeout stops the sender in its first cycle:
    [trio.move_on_after] raises [ValueError] before anything is taken
    from the queue, and no task is started. *)
Lemma sender_negative_batch_timeout (batch_size : option Z) (t : Q)
    (feed : arrivals) (feeds : list arrivals) (n : nat) :
  (t < 0)%Q ->
  sender table batch_size (Some t) api_timeout (feed :: feeds) n
  = ([], Some ValueError, n).
Proof.
  intros Ht. unfold sender. cbn [default sender_loop]. unfold sender_cycle.
  destruct (Qle_bool 0%Q t) eqn:Q0; [|reflexivity].
  apply Qle_bool_iff in Q0. lra.
Qed.

(** A batch size of zero or less is taken as it is (only [None] gives
    the default): every cycle ends with an empty batch, so the sender
    never starts a task and never draws a UUID, whatever arrives. *)
Lemma sender_batch_size_not_positive (size : Z) (batch_timeout : option Q)
    (feeds : list arrivals) (n : nat) :
  (size <= 0)%Z ->
  (0 <= default 30 batch_timeout)%Q ->
  sender table (Some size) batch_timeout api_timeout feeds n
  = ([], None, n).
Proof.
  intros Hsize Ht. unfold sender. cbn [default].
  induction feeds as [|feed feeds IH]; [reflexivity|].
  cbn [sender_loop].
  destruct (sender_cycle_tasks size feed n Ht) as [tasks [E [Hf _]]].
  pose proof (collect_length size (default 30%Q batch_timeout) feed) as Hl.
  rewrite E.
  assert (Hnil : tasks = []).
  { destruct tasks as [|t tasks]; [reflexivity|].
    apply Forall_inv in Hf. lia. }
  subst tasks.
  replace (n + List.length
                 (collect size (default 30%Q batch_timeout) feed []))
    with n by lia.
  now rewrite IH.
Qed.


End SenderMore.

Lemma sender_negative_batch_timeout_witness :
  (-1 < 0)%Q
  /\ sender (G := Example.grammars) (C := Example.converter)
       (U := Example.uuids) (B := Example.slow_sink) tt None (Some (-1)%Q)
       None [[(0%Q, Example.d1)]] 0
     = ([], Some ValueError, 0).
Proof.
  split; [reflexivity|].
  apply (sender_negative_batch_timeout (G := Example.grammars)
           (C := Example.converter) (U := Example.uuids)
           (B := Example.slow_sink) tt None None (t := (-1)%Q)
           [(0%Q, Example.d1)] [] 0 eq_refl).
Defined.

Lemma sender_batch_size_not_positive_witness :
  (0 <= 0)%Z /\ (0 <= default 30 None)%Q
  /\ sender (G := Example.grammars) (C := Example.converter)
       (U := Example.uuids) (B := Example.slow_sink) tt (Some 0%Z) None
       None [[(0%Q, Example.d1)]; [(0%Q, Example.d1); (1%Q, Example.d2)]] 5
     = ([], None, 5).
Proof.
  assert (Hs : (0 <= 0)%Z) by lia.
  assert (Ht : (0 <= default 30 None)%Q) by discriminate.
  split; [exact Hs|]. split; [exact Ht|].
  apply (sender_batch_size_not_positive (G := Example.grammars)
           (C := Example.converter) (U := Example.uuids)
           (B := Example.slow_sink) tt None None
           [[(0%Q, Example.d1)]; [(0%Q, Example.d1); (1%Q, Example.d2)]] 5
           Hs Ht).
Defined.


(** ** The connection handler *)

Section ConnectionFacts.

Context {G : Grammars} {L : LineReceiver}.

Lemma connection_loop_step (lr : receiver) (r : received)
    (reads : list received) :
  connection_loop lr (r :: reads)
  = match receive_some r with
    | Raise e => ([], Raised e, lr)
    | Ok [] => ([Close], Returned, close lr)
    | Ok data =>
        match recieve_data lr data with
        | (msgs, Some e, lr') => (map Put msgs, Raised e, lr')
        | (msgs, None, lr') =>
            let '(events, e, lr'') := connection_loop lr' reads in
            (map Put msgs ++ events, e, lr'')
        end
    end.
Proof. reflexivity. Qed.

Lemma puts_of_map_Put (msgs : list Msg) : puts_of (map Put msgs) = msgs.
Proof.
  induction msgs as [|m msgs IH]; [reflexivity|].
  cbn. unfold puts_of in IH. now rewrite IH.
Qed.

Lemma puts_of_app (l1 l2 : list connection_event) :
  puts_of (l1 ++ l2) = puts_of l1 ++ puts_of l2.
Proof. apply flat_map_app. Qed.

(** The end of the stream ends the handler, and a broken stream is an
    end of the stream: whatever the stream would give after the first
    empty read or the first [BrokenStreamError] is never read. *)
Lemma handle_connection_end_of_stream
    (reads rest : list received) (token : option str) :
  handle_connection (reads ++ Data [] :: rest) token
  = handle_connection (reads ++ [Data []]) token
  /\ handle_connection (reads ++ BrokenStreamError :: rest) token
     = handle_connection (reads ++ [Data []]) token.
Proof.
  unfold handle_connection.
  generalize (new_LineReceiver (fun line => parse_line line token)).
  induction reads as [|r reads IH]; intros lr.
  - split; reflexivity.
  - rewrite <- !app_comm_cons, !connection_loop_step.
    destruct (receive_some r) as [[|b data]|e]; [auto | | auto].
    destruct (recieve_data lr (b :: data)) as [[msgs [e|]] lr'];
      [auto|].
    destruct (IH lr') as [-> ->]. auto.
Qed.

(** The receiver is closed exactly when the handler returns: then once,
    after the last message was put.  A handler that raised, or that
    still waits for a read, has not closed it. *)
Lemma handle_connection_closes_at_return
    (reads : list received) (token : option str) :
  let '(events, e, _) := handle_connection reads token in
  (e = Returned /\ events = map Put (puts_of events) ++ [Close])
  \/ (e <> Returned /\ events = map Put (puts_of events)).
Proof.
  unfold handle_connection.
  generalize (new_LineReceiver (fun line => parse_line line token)).
  induction reads as [|r reads IH]; intros lr.
  - right. split; [discriminate | reflexivity].
  - rewrite connection_loop_step.
    destruct (receive_some r) as [[|b data]|e].
    + left. split; reflexivity.
    + destruct (recieve_data lr (b :: data)) as [[msgs [e|]] lr'].
      * right. split; [discriminate|]. now rewrite puts_of_map_Put.
      * specialize (IH lr').
        destruct (connection_loop lr' reads) as [[events e] lr''].
        rewrite puts_of_app, puts_of_map_Put, map_app.
        destruct IH as [[He Hev]|[He Hev]]; [left | right];
          (split; [exact He|]);
          rewrite <- ?app_assoc; f_equal; exact Hev.
    + right. split; [discriminate | reflexivity].
Qed.

(** Between two reads the handler keeps nothing but the receiver: a
    handler that waits for a read goes on, from the receiver it holds,
    as a fresh loop would. *)
Lemma connection_loop_app (lr lr1 : receiver)
    (reads1 reads2 : list received) (events1 : list connection_event) :
  connection_loop lr reads1 = (events1, Reading, lr1) ->
  connection_loop lr (reads1 ++ reads2)
  = let '(events2, e, lr2) := connection_loop lr1 reads2 in
    (events1 ++ events2, e, lr2).
Proof.
  revert lr events1. induction reads1 as [|r reads1 IH]; intros lr events1.
  - cbn [connection_loop app]. intros H. injection H as <- <-.
    now destruct (connection_loop lr reads2) as [[events2 e] lr2].
  - rewrite <- app_comm_cons, !connection_loop_step.
    destruct (receive_some r) as [[|b data]|e]; [discriminate | | discriminate].
    destruct (recieve_data lr (b :: data)) as [[msgs [e|]] lr'];
      [discriminate|].
    specialize (IH lr').
    destruct (connection_loop lr' reads1) as [[events e] lr''].
    intros H. injection H as <- -> ->.
    rewrite (IH events eq_refl).
    destruct (connection_loop lr1 reads2) as [[events2 e2] lr2].
    now rewrite app_assoc.
Qed.

(** A handler that returned or raised reads no more. *)
Lemma connection_loop_stopped (lr : receiver)
    (reads1 reads2 : list received) :
  snd (fst (connection_loop lr reads1)) <> Reading ->
  connection_loop lr (reads1 ++ reads2) = connection_loop lr reads1.
Proof.
  revert lr. induction reads1 as [|r reads1 IH]; intros lr.
  - cbn. congruence.
  - rewrite <- app_comm_cons, !connection_loop_step.
    destruct (receive_some r) as [[|b data]|e]; [reflexivity | | reflexivity].
    destruct (recieve_data lr (b :: data)) as [[msgs [e|]] lr'];
      [reflexivity|].
    specialize (IH lr').
    destruct (connection_loop lr' reads1) as [[events e] lr''].
    cbn [fst snd] in *. intros H. now rewrite (IH H).
Qed.

End ConnectionFacts.

(** Two lines read one after the other, each a record. *)
Lemma connection_loop_app_witness :
  connection_loop (L := ExampleReceiver.one_line_per_read)
    (new_LineReceiver (fun line => parse_line line None))
    [Data (Utf8.bytes_of_string "A")]
  = ([Put (L := ExampleReceiver.one_line_per_read) Example.d1], Reading,
     new_LineReceiver (fun line => parse_line line None))
  /\ fst (handle_connection (L := ExampleReceiver.one_line_per_read)
            [Data (Utf8.bytes_of_string "A");
             Data (Utf8.bytes_of_string "B"); Data []] None)
     = ([Put (L := ExampleReceiver.one_line_per_read) Example.d1;
         Put (L := ExampleReceiver.one_line_per_read) Example.d2;
         Close (L := ExampleReceiver.one_line_per_read)], Returned).
Proof.
  assert (H : connection_loop (L := ExampleReceiver.one_line_per_read)
                (new_LineReceiver (fun line => parse_line line None))
                [Data (Utf8.bytes_of_string "A")]
              = ([Put (L := ExampleReceiver.one_line_per_read) Example.d1],
                 Reading,
                 new_LineReceiver (fun line => parse_line line None)))
    by reflexivity.
  split; [exact H|].
  exact (eq_trans
           (f_equal fst
              (@connection_loop_app _ ExampleReceiver.one_line_per_read _ _
                 [Data (Utf8.bytes_of_string "A")]
                 [Data (Utf8.bytes_of_string "B"); Data []] _ H))
           eq_refl).
Defined.

(** After a line on which the decoder raises, the handler is gone: the
    next line is not read and the receiver is not closed. *)
Lemma connection_loop_stopped_witness :
  snd (fst (connection_loop (L := ExampleReceiver.one_line_per_read)
              (new_LineReceiver (fun line => parse_line line None))
              [Data (Utf8.bytes_of_string "K")]))
  <> Reading
  /\ fst (connection_loop (L := ExampleReceiver.one_line_per_read)
            (new_LineReceiver (fun line => parse_line line None))
            ([Data (Utf8.bytes_of_string "K")]
             ++ [Data (Utf8.bytes_of_string "A"); Data []]))
     = ([], Raised (OtherError 0)).
Proof.
  assert (H : snd (fst (connection_loop
                          (L := ExampleReceiver.one_line_per_read)
                          (new_LineReceiver
                             (fun line => parse_line line None))
                          [Data (Utf8.bytes_of_string "K")]))
              <> Reading) by discriminate.
  split; [exact H|].
  rewrite (@connection_loop_stopped _ ExampleReceiver.one_line_per_read _
             [Data (Utf8.bytes_of_string "K")]
             [Data (Utf8.bytes_of_string "A"); Data []] H).
  reflexivity.
Defined.
